(** * khoj: Markdown to JSONL conversion and text search

    A shallow embedding of
      - [src/processor/markdown/markdown_to_jsonl.py]
      - [src/search_type/text_search.py]
    together with the properties their specification states.

    Python [str] values are modelled as [string] (a sequence of bytes, the
    UTF-8 encoding of the text: every character the code inspects, ['#'],
    newline, the JSON escapes, is ASCII).  Code that raises returns in a
    sum; code that prints, reads or writes files, or calls a model, runs in
    the monad [M] over a [world] holding the file system and a log of the
    observable events. *)

From Stdlib Require Import List String Ascii Bool Arith Lia.
From Stdlib Require Import QArith Sorted Permutation DecimalString.
Import ListNotations.
Close Scope Q_scope.
Open Scope list_scope.
Open Scope string_scope.

Set Implicit Arguments.

(* ------------------------------------------------------------------ *)
(** ** Python runtime: exceptions, events, the world *)
(* ------------------------------------------------------------------ *)

Module Py.

(** The exceptions the two modules can raise. *)
Inductive exn : Type :=
| IndexError
| KeyError
| FileNotFoundError (path : string)
| UnpicklingError (path : string)
| SystemExit (status : nat).

(** What a run does that an observer can see. *)
Inductive event : Type :=
| Printed (msg : string)
| Globbed (pattern : string)
| FileRead (path : string)
| FileWritten (path : string) (data : string)
| BiEncoded (texts : list string)
| Searched (question_embedding corpus_embeddings : list (list Q)) (top_k : nat)
| CrossEncoded (pairs : list (string * string)).

Record world : Type := World {
  files : string -> option string;   (* path |-> content *)
  log : list event                   (* oldest event first *)
}.

Definition is_write (e : event) : bool :=
  match e with FileWritten _ _ => true | _ => false end.

(** State and exception monad. *)
Definition M (A : Type) : Type := world -> (exn + A) * world.

Definition ret {A} (a : A) : M A := fun w => (inr a, w).

Definition bind {A B} (m : M A) (k : A -> M B) : M B :=
  fun w =>
    match m w with
    | (inl e, w') => (inl e, w')
    | (inr a, w') => k a w'
    end.

Definition raise {A} (e : exn) : M A := fun w => (inl e, w).

Definition lift {A} (r : exn + A) : M A := fun w => (r, w).

Definition emit (e : event) : M unit :=
  fun w => (inr tt, World (files w) (log w ++ [e])).

(** [print(msg)] *)
Definition print (msg : string) : M unit := emit (Printed msg).

(** [exit(status)] raises [SystemExit]. *)
Definition exit {A} (status : nat) : M A := raise (SystemExit status).

(** [with open(path) as f: f.read()] *)
Definition read_file (path : string) : M string :=
  fun w =>
    match files w path with
    | Some content => (inr content, World (files w) (log w ++ [FileRead path]))
    | None => (inl (FileNotFoundError path), w)
    end.

Definition update (fs : string -> option string) (path data : string)
  : string -> option string :=
  fun p => if String.eqb p path then Some data else fs p.

(** Writing a whole file. *)
Definition write_file (path data : string) : M unit :=
  fun w => (inr tt, World (update (files w) path data)
                          (log w ++ [FileWritten path data])).

(** The content of a file; the empty text when there is none. *)
Definition content_of (w : world) (path : string) : string :=
  match files w path with
  | Some content => content
  | None => EmptyString
  end.

(** A computation that leaves every file as it is and logs no write,
    whatever the world it starts from and however it ends. *)
Definition writes_nothing {A} (m : M A) : Prop :=
  forall w,
    files (snd (m w)) = files w /\
    exists evs, log (snd (m w)) = (log w ++ evs)%list /\
                Forall (fun e => is_write e = false) evs.

End Py.

Import Py.

Declare Scope py_scope.
Delimit Scope py_scope with py.
Notation "x <- m ;; k" := (bind m (fun x => k))
  (at level 61, m at next level, right associativity) : py_scope.
Notation "m ;;; k" := (bind m (fun _ => k))
  (at level 61, right associativity) : py_scope.
Notation "' pat <- m ;; k" := (bind m (fun x => match x with pat => k end))
  (at level 61, pat pattern, m at next level, right associativity) : py_scope.
Open Scope py_scope.

(* ------------------------------------------------------------------ *)
(** ** Strings: the [str] and [re] operations the converter uses *)
(* ------------------------------------------------------------------ *)

Module Str.

Definition LF : ascii := "010"%char.
Definition HASH : ascii := "#"%char.
Definition QUOTE : ascii := "034"%char.
Definition BACKSLASH : ascii := "\"%char.

Definition is_empty (s : string) : bool :=
  match s with EmptyString => true | String _ _ => false end.

Fixpoint mem (c : ascii) (chars : string) : bool :=
  match chars with
  | EmptyString => false
  | String d chars' => Ascii.eqb c d || mem c chars'
  end.

(** [s.lstrip(chars)] *)
Fixpoint lstrip (chars s : string) : string :=
  match s with
  | EmptyString => EmptyString
  | String c s' => if mem c chars then lstrip chars s' else s
  end.

(** [s.rstrip(chars)] *)
Fixpoint rstrip (chars s : string) : string :=
  match s with
  | EmptyString => EmptyString
  | String c s' =>
      let r := rstrip chars s' in
      if is_empty r && mem c chars then EmptyString else String c r
  end.

(** [s.strip(chars)]: drop the leading and the trailing characters that
    occur in [chars]. *)
Definition strip (chars s : string) : string := rstrip chars (lstrip chars s).

(** [re.split(r'^#', s, flags=re.MULTILINE)]: a match is a ['#'] at the
    start of the text or right after a newline; the pieces between the
    matches are returned, the empty ones too.  [bol] tells whether the
    position of [s] is the beginning of a line. *)
Fixpoint re_split_heading (bol : bool) (s : string) : list string :=
  match s with
  | EmptyString => [EmptyString]
  | String c s' =>
      if bol && Ascii.eqb c HASH
      then EmptyString :: re_split_heading false s'
      else match re_split_heading (Ascii.eqb c LF) s' with
           | piece :: pieces => String c piece :: pieces
           | [] => [String c EmptyString]
           end
  end.

(** [s.split('\n')]: the lines of a text. *)
Fixpoint lines (s : string) : list string :=
  match s with
  | EmptyString => [EmptyString]
  | String c s' =>
      if Ascii.eqb c LF then EmptyString :: lines s'
      else match lines s' with
           | l :: ls => String c l :: ls
           | [] => [String c EmptyString]
           end
  end.

(** [s.startswith('#')] *)
Definition starts_with_hash (s : string) : bool :=
  match s with
  | String c _ => Ascii.eqb c HASH
  | EmptyString => false
  end.

(** Number of lines of [s] that begin with ['#']. *)
Definition heading_lines (s : string) : nat :=
  List.length (filter starts_with_hash (lines s)).

(** Number of heading lines of [s] after its first line. *)
Definition later_headings (s : string) : nat :=
  List.length (filter starts_with_hash (tl (lines s))).

(** [sep.join(parts)] *)
Fixpoint join (sep : string) (parts : list string) : string :=
  match parts with
  | [] => EmptyString
  | [p] => p
  | p :: ps => p ++ sep ++ join sep ps
  end.

(** [''.join(parts)] *)
Definition concat_all (parts : list string) : string :=
  fold_right append EmptyString parts.

(** Whether the first character of [s] is one of [chars]. *)
Definition first_in (chars s : string) : bool :=
  match s with
  | String c _ => mem c chars
  | EmptyString => false
  end.

(** Whether the last character of [s] is one of [chars]. *)
Fixpoint last_in (chars s : string) : bool :=
  match s with
  | EmptyString => false
  | String c EmptyString => mem c chars
  | String _ s' => last_in chars s'
  end.

(** [t in s]: the text [t] is a contiguous part of [s]. *)
Definition occurs_in (t s : string) : Prop := exists a b, s = a ++ t ++ b.

(** [str(n)] of an [int]. *)
Definition str_of_int (n : Z) : string := NilZero.string_of_int (Z.to_int n).

(** [l[0:count]]: a negative [count] is taken from the end of the list. *)
Definition slice_to {A} (count : Z) (l : list A) : list A :=
  firstn (Z.to_nat (if (count <? 0)%Z
                    then (Z.of_nat (List.length l) + count)%Z
                    else count)) l.

End Str.

Import Str.

(* ------------------------------------------------------------------ *)
(** ** [json.dumps] on a dict of strings *)
(* ------------------------------------------------------------------ *)

Module Json.

(** A dict with string keys and values, in insertion order. *)
Definition dict : Type := list (string * string).

Definition hex_digit (n : nat) : ascii :=
  match get n "0123456789abcdef" with
  | Some c => c
  | None => "0"%char
  end.

(** ['\\u{0:04x}'.format(n)] for [n < 256] *)
Definition u_escape (n : nat) : string :=
  "\u00" ++ String (hex_digit (n / 16)) (String (hex_digit (n mod 16)) EmptyString).

(** [ESCAPE_DCT] of [json.encoder], as [py_encode_basestring] uses it
    when [ensure_ascii=False]. *)
Definition escape_char (c : ascii) : string :=
  let n := nat_of_ascii c in
  if Ascii.eqb c BACKSLASH then "\\"
  else if Ascii.eqb c QUOTE then String BACKSLASH (String QUOTE EmptyString)
  else if Nat.eqb n 8 then "\b"
  else if Nat.eqb n 12 then "\f"
  else if Nat.eqb n 10 then "\n"
  else if Nat.eqb n 13 then "\r"
  else if Nat.eqb n 9 then "\t"
  else if Nat.ltb n 32 then u_escape n
  else String c EmptyString.

Fixpoint escape (s : string) : string :=
  match s with
  | EmptyString => EmptyString
  | String c s' => escape_char c ++ escape s'
  end.

Definition encode_str (s : string) : string :=
  String QUOTE (escape s ++ String QUOTE EmptyString).

Definition encode_item (kv : string * string) : string :=
  encode_str (fst kv) ++ ": " ++ encode_str (snd kv).

(** [json.dumps(d, ensure_ascii=False)] *)
Definition dumps (d : dict) : string :=
  "{" ++ join ", " (map encode_item d) ++ "}".

Definition keys (d : dict) : list string := map fst d.

(** [d[key]] *)
Fixpoint lookup (key : string) (d : dict) : option string :=
  match d with
  | [] => None
  | (k, v) :: d' => if String.eqb k key then Some v else lookup key d'
  end.

(** *** Reading a JSON string back *)

Definition hex_value (c : ascii) : option nat :=
  let n := nat_of_ascii c in
  if Nat.leb 48 n && Nat.leb n 57 then Some (n - 48)
  else if Nat.leb 97 n && Nat.leb n 102 then Some (n - 87)
  else None.

(** The character a backslash and [d] stand for. *)
Definition unescape_char (d : ascii) : option ascii :=
  if Ascii.eqb d BACKSLASH then Some BACKSLASH
  else if Ascii.eqb d QUOTE then Some QUOTE
  else if Ascii.eqb d "b" then Some (ascii_of_nat 8)
  else if Ascii.eqb d "f" then Some (ascii_of_nat 12)
  else if Ascii.eqb d "n" then Some (ascii_of_nat 10)
  else if Ascii.eqb d "r" then Some (ascii_of_nat 13)
  else if Ascii.eqb d "t" then Some (ascii_of_nat 9)
  else None.

(** Reads the inside of a JSON string up to its closing quote: the text
    it stands for and what follows the quote. *)
Fixpoint read_until_quote (s : string) : option (string * string) :=
  match s with
  | EmptyString => None
  | String c s1 =>
      if Ascii.eqb c QUOTE then Some (EmptyString, s1)
      else if Ascii.eqb c BACKSLASH then
        match s1 with
        | EmptyString => None
        | String d s2 =>
            if Ascii.eqb d "u" then
              match s2 with
              | String z1 (String z2 (String h1 (String h2 s3))) =>
                  match hex_value z1, hex_value z2, hex_value h1, hex_value h2 with
                  | Some 0, Some 0, Some a, Some b =>
                      match read_until_quote s3 with
                      | Some (t, rest) =>
                          Some (String (ascii_of_nat (16 * a + b)) t, rest)
                      | None => None
                      end
                  | _, _, _, _ => None
                  end
              | _ => None
              end
            else
              match unescape_char d with
              | Some ch =>
                  match read_until_quote s2 with
                  | Some (t, rest) => Some (String ch t, rest)
                  | None => None
                  end
              | None => None
              end
        end
      else
        match read_until_quote s1 with
        | Some (t, rest) => Some (String c t, rest)
        | None => None
        end
  end.

End Json.

(* ------------------------------------------------------------------ *)
(** ** [src/processor/markdown/markdown_to_jsonl.py] *)
(* ------------------------------------------------------------------ *)

Module Markdown.

(** What the converter takes from outside this file: a constant of
    [src.utils.constants], a helper of [src.utils.helpers], the standard
    library ([glob], [pathlib], [gzip]) and the iteration order of a
    [set] of strings, which Python leaves unspecified. *)
Record env : Type := Env {
  empty_escape_sequences : string;
  get_absolute_path : string -> string;
  glob_glob : string -> list string;
  set_order : list string -> list string;
  suffix : string -> string;
  gzip_compress : string -> string
}.

(** Modelled from the spec: [is_none_or_empty] of [src.utils.helpers],
    true when the value is none or empty. *)
Definition is_none_or_empty {A} (len : A -> nat) (v : option A) : bool :=
  match v with
  | None => true
  | Some x => Nat.eqb (len x) 0
  end.

(** Modelled from the spec: [dump_jsonl] of [src.utils.jsonl] writes the
    JSON Lines text to the output file. *)
Definition dump_jsonl (jsonl_data output_file : string) : M unit :=
  write_file output_file jsonl_data.

(** Modelled from the spec: [compress_jsonl_data] of [src.utils.jsonl]
    writes the JSON Lines text gzip-compressed to the output file. *)
Definition compress_jsonl_data (E : env) (jsonl_data output_file : string)
  : M unit :=
  write_file output_file (gzip_compress E jsonl_data).

(** A Python [set] of strings built from a list: no duplicates, iterated
    in the order the environment fixes. *)
Definition py_set (E : env) (l : list string) : list string :=
  set_order E (nodup string_dec l).

Definition required_msg : string :=
  "At least one of markdown-files or markdown-file-filter is required to be specified".

(** [get_markdown_files]; the calls to [logger] are left out. *)
Definition get_markdown_files (E : env)
    (markdown_files : option (list string))
    (markdown_file_filter : option string) : M (list string) :=
  let absolute_markdown_files :=
    match markdown_files with
    | Some (f :: fs) => map (get_absolute_path E) (f :: fs)
    | _ => []
    end in
  filtered_markdown_files <-
    match markdown_file_filter with
    | Some (String c p) =>
        let pattern := get_absolute_path E (String c p) in
        emit (Globbed pattern) ;;; ret (glob_glob E pattern)
    | _ => ret []
    end ;;
  ret (py_set E (absolute_markdown_files ++ filtered_markdown_files)).

(** The list comprehension of [extract_markdown_entries]. *)
Definition markdown_entries_per_file (E : env) (markdown_content : string)
  : list string :=
  map (fun entry => String HASH (strip (empty_escape_sequences E) entry))
      (re_split_heading true markdown_content).

(** The loop of [extract_markdown_entries], from the state
    [(entries, entry_to_file_map)]. *)
Fixpoint extract_loop (E : env) (markdown_files : list string)
    (entries entry_to_file_map : list string)
  : M (list string * list string) :=
  match markdown_files with
  | [] => ret (entries, entry_to_file_map)
  | markdown_file :: rest =>
      markdown_content <- read_file markdown_file ;;
      let per_file := markdown_entries_per_file E markdown_content in
      extract_loop E rest
        (entries ++ per_file)
        (entry_to_file_map ++ repeat markdown_file (List.length per_file))
  end.

Definition extract_markdown_entries (E : env) (markdown_files : list string)
  : M (list string * list string) :=
  extract_loop E markdown_files [] [].

Definition entry_dict (entry file : string) : Json.dict :=
  [("compiled", entry); ("raw", entry); ("file", file)].

(** The loop of [convert_markdown_entries_to_jsonl] over
    [enumerate(entries)], from [entry_id] and the text built so far. *)
Fixpoint convert_loop (entry_id : nat) (entries entry_to_file_map : list string)
    (jsonl : string) : exn + string :=
  match entries with
  | [] => inr jsonl
  | entry :: rest =>
      match nth_error entry_to_file_map entry_id with
      | None => inl IndexError
      | Some file =>
          convert_loop (S entry_id) rest entry_to_file_map
            (jsonl ++ Json.dumps (entry_dict entry file) ++ String LF EmptyString)
      end
  end.

Definition convert_markdown_entries_to_jsonl
    (entries entry_to_file_map : list string) : exn + string :=
  convert_loop 0 entries entry_to_file_map EmptyString.

Definition markdown_to_jsonl (E : env)
    (markdown_files : option (list string))
    (markdown_file_filter : option string)
    (output_file : string) : M (list string) :=
  (if is_none_or_empty (@List.length string) markdown_files
      && is_none_or_empty String.length markdown_file_filter
   then print required_msg ;;; exit 1
   else ret tt) ;;;
  markdown_files <- get_markdown_files E markdown_files markdown_file_filter ;;
  ' (entries, entry_to_file_map) <- extract_markdown_entries E markdown_files ;;
  jsonl_data <- lift (convert_markdown_entries_to_jsonl entries entry_to_file_map) ;;
  (if String.eqb (suffix E output_file) ".gz"
   then compress_jsonl_data E jsonl_data output_file
   else if String.eqb (suffix E output_file) ".jsonl"
   then dump_jsonl jsonl_data output_file
   else ret tt) ;;;
  ret entries.

(** The records a run emits, as the specification describes them: for
    each file in turn, one record per entry of that file, carrying the
    path of that file. *)
Definition records_of_file (E : env) (path content : string) : list Json.dict :=
  map (fun entry => entry_dict entry path) (markdown_entries_per_file E content).

(** Entries and their files, file by file. *)
Definition entries_of (E : env) (w : world) (paths : list string) : list string :=
  flat_map (fun p => markdown_entries_per_file E (content_of w p)) paths.

Definition files_of (E : env) (w : world) (paths : list string) : list string :=
  flat_map (fun p => repeat p (List.length
              (markdown_entries_per_file E (content_of w p)))) paths.

Definition jsonl_of_records (records : list Json.dict) : string :=
  concat_all (map (fun d => Json.dumps d ++ String LF EmptyString) records).

End Markdown.

(* ------------------------------------------------------------------ *)
(** ** [list.sort(key=..., reverse=True)] *)
(* ------------------------------------------------------------------ *)

Module PySort.

(** Stable insertion: [x] goes before the first element that is not
    smaller, so it stays ahead of the equal elements that followed it. *)
Fixpoint insert {A} (leb : A -> A -> bool) (x : A) (l : list A) : list A :=
  match l with
  | [] => [x]
  | y :: l' => if leb x y then x :: l else y :: insert leb x l'
  end.

(** A stable ascending sort (the result of CPython's merge sort is the
    one every stable sort gives). *)
Definition stable_sort {A} (leb : A -> A -> bool) (l : list A) : list A :=
  fold_right (insert leb) [] l.

(** The keys are computed first, for every element; a key function
    that raises aborts the sort. *)
Fixpoint decorate {A} (key : A -> exn + Q) (l : list A) : exn + list (Q * A) :=
  match l with
  | [] => inr []
  | x :: l' =>
      match key x with
      | inl e => inl e
      | inr k =>
          match decorate key l' with
          | inl e => inl e
          | inr kl => inr ((k, x) :: kl)
          end
      end
  end.

Definition key_leb {A} (a b : Q * A) : bool := Qle_bool (fst a) (fst b).

(** [l.sort(key=key, reverse=True)]: CPython reverses the list, sorts
    it stably in ascending order of the keys, and reverses the result. *)
Definition sort_reverse {A} (key : A -> exn + Q) (l : list A) : exn + list A :=
  match decorate key l with
  | inl e => inl e
  | inr kl => inr (map snd (rev (stable_sort key_leb (rev kl))))
  end.

(** Ascending by key, ties related by [T]. *)
Definition lex_asc {A} (T : Q * A -> Q * A -> Prop) (p q : Q * A) : Prop :=
  (fst p < fst q)%Q \/ ((fst p == fst q)%Q /\ T p q).

(** Descending by key, ties related by [R]: the order of a list after
    [sort_reverse] when it was ordered by [R] before. *)
Definition desc_then {A} (key : A -> exn + Q) (R : A -> A -> Prop) (a b : A)
  : Prop :=
  exists ka kb,
    key a = inr ka /\ key b = inr kb /\
    ((kb < ka)%Q \/ ((kb == ka)%Q /\ R a b)).

End PySort.

(* ------------------------------------------------------------------ *)
(** ** [src/search_type/text_search.py] *)
(* ------------------------------------------------------------------ *)

Module TextSearch.

(** A row of an embedding tensor, and a two-dimensional tensor. *)
Definition vec : Type := list Q.
Definition tensor : Type := list vec.

Record entry : Type := Entry {
  compiled : string;
  raw : string;
  file : string
}.

(** A hit of [util.semantic_search]: a dict with ['corpus_id'] and
    ['score'], to which [query] may add ['cross-score']. *)
Record hit : Type := Hit {
  corpus_id : nat;
  score : Q;
  cross_score : option Q
}.

(** The interface of [BaseFilter] that [query] uses: [apply] returns the
    rewritten query and the set of the indices it keeps.  Filters are
    functions here; one that raises is outside the model. *)
Record filter : Type := Filter {
  can_filter : string -> bool;
  apply : string -> list entry -> string * list nat
}.

Record TextSearchModel : Type := Model {
  entries : list entry;
  corpus_embeddings : tensor;
  bi_encoder : list string -> tensor;
  cross_encoder : list (string * string) -> list Q;
  filters : list filter;
  top_k : nat
}.

(** What [text_search.py] takes from [torch], [sentence_transformers]
    and [src.utils.helpers], and the iteration order of a [set] of
    integers after an intersection. *)
Record env : Type := Env {
  normalize_embeddings : tensor -> tensor;
  semantic_search : tensor -> tensor -> nat -> list (list (nat * Q));
  set_order : list nat -> list nat;
  torch_save : tensor -> string;
  torch_load : string -> option tensor;
  get_absolute_path : string -> string
}.

(** [torch.load(path)] *)
Definition torch_load_file (E : env) (path : string) : M tensor :=
  content <- read_file path ;;
  match torch_load E content with
  | Some t => ret t
  | None => raise (UnpicklingError path)
  end.

(** [embeddings_file.exists()] *)
Definition exists_file (path : string) : M bool :=
  fun w => (inr (match files w path with Some _ => true | None => false end), w).

Definition compute_embeddings (E : env) (entries : list entry)
    (bi_encoder : list string -> tensor) (embeddings_file : string)
    (regenerate : bool) : M tensor :=
  file_exists <- exists_file embeddings_file ;;
  if file_exists && negb regenerate
  then torch_load_file E (get_absolute_path E embeddings_file)
  else
    let texts := map compiled entries in
    emit (BiEncoded texts) ;;;
    let corpus_embeddings := bi_encoder texts in
    let corpus_embeddings := normalize_embeddings E corpus_embeddings in
    write_file embeddings_file (torch_save E corpus_embeddings) ;;;
    ret corpus_embeddings.

(** [set(range(n))]: CPython iterates a set of the integers below [n]
    in increasing order (an integer hashes to itself and the table is
    larger than [n]). *)
Definition set_of_range (n : nat) : list nat := seq 0 n.

(** [s.intersection_update(other)]: a new table holding the elements of
    [s] that are in [other], iterated in the order the environment fixes. *)
Definition intersection_update (E : env) (s other : list nat) : list nat :=
  set_order E (List.filter (fun i => existsb (Nat.eqb i) other) s).

(** The loop over [filters_in_query]. *)
Fixpoint apply_filters (E : env) (filters_in_query : list filter)
    (query : string) (entries : list entry) (included_entry_indices : list nat)
  : string * list nat :=
  match filters_in_query with
  | [] => (query, included_entry_indices)
  | f :: rest =>
      let (query', included_entry_indices_by_filter) := apply f query entries in
      apply_filters E rest query' entries
        (intersection_update E included_entry_indices
                             included_entry_indices_by_filter)
  end.

(** Lines 80 to 84 of [query]: the filtered query and the included
    indices. *)
Definition filter_stage (E : env) (raw_query : string) (model : TextSearchModel)
  : string * list nat :=
  let included_entry_indices := set_of_range (List.length (entries model)) in
  let filters_in_query :=
    List.filter (fun f => can_filter f raw_query) (filters model) in
  apply_filters E filters_in_query raw_query (entries model)
                included_entry_indices.

(** [[l[i] for i in ids]]; [torch.index_select(l, 0, torch.tensor(ids))]
    is the same on the rows of a tensor.  An index out of range is an
    error. *)
Fixpoint select {A} (l : list A) (ids : list nat) : exn + list A :=
  match ids with
  | [] => inr []
  | i :: ids' =>
      match nth_error l i with
      | None => inl IndexError
      | Some x =>
          match select l ids' with
          | inl e => inl e
          | inr xs => inr (x :: xs)
          end
      end
  end.

(** Lines 91 and 92 of [query]. *)
Definition narrow (model : TextSearchModel) (included_entry_indices : list nat)
  : exn + (list entry * tensor) :=
  match select (entries model) included_entry_indices with
  | inl e => inl e
  | inr es =>
      match select (corpus_embeddings model) included_entry_indices with
      | inl e => inl e
      | inr embs => inr (es, embs)
      end
  end.

(** [[[query, entries[hit['corpus_id']]['compiled']] for hit in hits]] *)
Fixpoint cross_inputs (query : string) (entries : list entry) (hits : list hit)
  : exn + list (string * string) :=
  match hits with
  | [] => inr []
  | h :: hits' =>
      match nth_error entries (corpus_id h) with
      | None => inl IndexError
      | Some e =>
          match cross_inputs query entries hits' with
          | inl err => inl err
          | inr ps => inr ((query, compiled e) :: ps)
          end
      end
  end.

(** [for idx in range(len(cross_scores)):
       hits[idx]['cross-score'] = cross_scores[idx]] *)
Fixpoint set_cross_scores (hits : list hit) (cross_scores : list Q)
  : exn + list hit :=
  match cross_scores with
  | [] => inr hits
  | s :: cross_scores' =>
      match hits with
      | [] => inl IndexError
      | h :: hits' =>
          match set_cross_scores hits' cross_scores' with
          | inl e => inl e
          | inr hs => inr (Hit (corpus_id h) (score h) (Some s) :: hs)
          end
      end
  end.

(** [lambda x: x['score']] and [lambda x: x['cross-score']] *)
Definition score_key (h : hit) : exn + Q := inr (score h).
Definition cross_score_key (h : hit) : exn + Q :=
  match cross_score h with
  | Some c => inr c
  | None => inl KeyError
  end.

(** Lines 102 to 135 of [query]: encode the query, search, score with the
    cross-encoder when asked to, sort. *)
Definition search_and_rank (E : env) (model : TextSearchModel) (query : string)
    (entries : list entry) (corpus_embeddings : tensor) (rank_results : bool)
  : M (list hit * list entry) :=
  emit (BiEncoded [query]) ;;;
  let question_embedding := bi_encoder model [query] in
  let question_embedding := normalize_embeddings E question_embedding in
  emit (Searched question_embedding corpus_embeddings (top_k model)) ;;;
  hits <- lift (match semantic_search E question_embedding
                        corpus_embeddings (top_k model) with
                | [] => inl IndexError
                | hs :: _ => inr (map (fun h => Hit (fst h) (snd h) None) hs)
                end) ;;
  hits <- (if rank_results
           then
             cross_inp <- lift (cross_inputs query entries hits) ;;
             emit (CrossEncoded cross_inp) ;;;
             let cross_scores := cross_encoder model cross_inp in
             lift (set_cross_scores hits cross_scores)
           else ret hits) ;;
  hits <- lift (PySort.sort_reverse score_key hits) ;;
  hits <- (if rank_results
           then lift (PySort.sort_reverse cross_score_key hits)
           else ret hits) ;;
  ret (hits, entries).

Definition query (E : env) (raw_query : string) (model : TextSearchModel)
    (rank_results : bool) : M (list hit * list entry) :=
  let (query, included_entry_indices) := filter_stage E raw_query model in
  match included_entry_indices with
  | [] => ret ([], [])
  | _ :: _ =>
      ' (entries, corpus_embeddings) <- lift (narrow model included_entry_indices) ;;
      match entries with
      | [] => ret ([], [])
      | _ :: _ =>
          search_and_rank E model query entries corpus_embeddings rank_results
      end
  end.

(** *** What the libraries promise *)

(** Iterating a set visits each of its elements once. *)
Definition set_order_ok (E : env) : Prop :=
  forall l, Permutation (set_order E l) l.

(** [util.semantic_search] returns one list of hits for each row of the
    query tensor, and every [corpus_id] is a row number of the corpus
    tensor. *)
Definition search_ok (E : env) : Prop :=
  forall q c k,
    List.length (semantic_search E q c k) = List.length q /\
    Forall (Forall (fun h => fst h < List.length c)) (semantic_search E q c k).

(** Normalizing keeps the rows; the encoders give one row, or one score,
    for each input. *)
Definition encoders_ok (E : env) (model : TextSearchModel) : Prop :=
  (forall t, List.length (normalize_embeddings E t) = List.length t) /\
  (forall texts, List.length (bi_encoder model texts) = List.length texts) /\
  (forall pairs, List.length (cross_encoder model pairs) = List.length pairs).

(** The order [query] promises: by falling bi-encoder score, and after
    reranking by falling cross-encoder score, ties by falling bi-encoder
    score. *)
Definition by_score (a b : hit) : Prop := (score b <= score a)%Q.

Definition by_cross_then_score (a b : hit) : Prop :=
  exists ca cb,
    cross_score a = Some ca /\ cross_score b = Some cb /\
    ((cb < ca)%Q \/ ((cb == ca)%Q /\ (score b <= score a)%Q)).

(* ------------------------------------------------------------------ *)
(** *** Showing the results *)

(** A row of [collate_results]: a dict with ['entry'] and ['score']. *)
Record collated : Type := Collated {
  collated_entry : string;
  collated_score : string
}.

(** [hit['cross-score'] if 'cross-score' in hit else hit['score']] *)
Definition shown_score (h : hit) : Q :=
  match cross_score h with
  | Some c => c
  | None => score h
  end.

(** The comprehension of [collate_results] over the hits kept;
    [format_3f] is the float format [:.3f]. *)
Fixpoint collate_loop (format_3f : Q -> string) (hits : list hit)
    (entries : list entry) : exn + list collated :=
  match hits with
  | [] => inr []
  | h :: hits' =>
      match nth_error entries (corpus_id h) with
      | None => inl IndexError
      | Some e =>
          match collate_loop format_3f hits' entries with
          | inl err => inl err
          | inr rows => inr (Collated (raw e) (format_3f (shown_score h)) :: rows)
          end
      end
  end.

Definition collate_results (format_3f : Q -> string) (hits : list hit)
    (entries : list entry) (count : Z) : exn + list collated :=
  collate_loop format_3f (slice_to count hits) entries.

Definition rule : string :=
  String LF ("-------------------------" ++ String LF EmptyString).

(** [f"Score: {hit['score']:.3f}\n------------\n{entries[...]['compiled']}"] *)
Definition score_line (format_3f : Q -> string) (entries : list entry) (h : hit)
  : exn + string :=
  match nth_error entries (corpus_id h) with
  | None => inl IndexError
  | Some e =>
      inr ("Score: " ++ format_3f (score h) ++ String LF "------------"
           ++ String LF (compiled e))
  end.

(** [f"CrossScore: {hit['cross-score']:.3f}\n-----------------\n{...}"] *)
Definition cross_score_line (format_3f : Q -> string) (entries : list entry)
    (h : hit) : exn + string :=
  match cross_score h with
  | None => inl KeyError
  | Some c =>
      match nth_error entries (corpus_id h) with
      | None => inl IndexError
      | Some e =>
          inr ("CrossScore: " ++ format_3f c ++ String LF "-----------------"
               ++ String LF (compiled e))
      end
  end.

(** [for hit in hits: print(line(hit))] *)
Fixpoint print_hits (line : hit -> exn + string) (hits : list hit) : M unit :=
  match hits with
  | [] => ret tt
  | h :: hits' =>
      text <- lift (line h) ;;
      print text ;;;
      print_hits line hits'
  end.

Definition render_results (format_3f : Q -> string) (hits : list hit)
    (entries : list entry) (count : Z) (display_biencoder_results : bool)
  : M unit :=
  hits <- (if display_biencoder_results
           then
             print rule ;;;
             print ("Top-" ++ str_of_int count ++ " Bi-Encoder Retrieval hits") ;;;
             hits <- lift (PySort.sort_reverse score_key hits) ;;
             print_hits (score_line format_3f entries) (slice_to count hits) ;;;
             ret hits
           else ret hits) ;;
  print rule ;;;
  print ("Top-" ++ str_of_int count ++ " Cross-Encoder Re-ranker hits") ;;;
  hits <- lift (PySort.sort_reverse cross_score_key hits) ;;
  print_hits (cross_score_line format_3f entries) (slice_to count hits).

(* ------------------------------------------------------------------ *)
(** *** Setting the model up *)

(** The fields of [TextSearchConfig] and [TextContentConfig] that
    [setup] reads. *)
Record TextSearchConfig : Type := SearchConfig {
  encoder : string;
  cross_encoder_name : string;      (* [search_config.cross_encoder] *)
  model_directory : string
}.

Record TextContentConfig : Type := ContentConfig {
  input_files : option (list string);
  input_filter : option string;
  compressed_jsonl : string;
  embeddings_file : string
}.

(** What [setup] takes from [src.utils.helpers], [src.utils.jsonl] and
    the filters: resolving a path, loading a model by directory and name,
    decoding the text of a JSON Lines file into entries, and what
    [filter.load(entries, regenerate)] turns a filter into. *)
Record setup_env : Type := SetupEnv {
  resolve_absolute_path : string -> string;
  load_bi_encoder : string -> string -> list string -> tensor;
  load_cross_encoder : string -> string -> list (string * string) -> list Q;
  decode_jsonl : string -> exn + list entry;
  filter_load : filter -> list entry -> bool -> filter
}.

(** [initialize_model]: the two models and [top_k = 15].  Setting the
    number of threads and creating the model directory touch nothing the
    world records. *)
Definition initialize_model (S : setup_env) (search_config : TextSearchConfig)
  : (list string -> tensor) * (list (string * string) -> list Q) * nat :=
  let model_directory := resolve_absolute_path S (model_directory search_config) in
  (load_bi_encoder S model_directory (encoder search_config),
   load_cross_encoder S model_directory (cross_encoder_name search_config),
   15).

(** [extract_entries]: [load_jsonl] reads the file and decodes it. *)
Definition extract_entries (S : setup_env) (jsonl_file : string)
  : M (list entry) :=
  content <- read_file jsonl_file ;;
  lift (decode_jsonl S content).

Definition setup (E : env) (S : setup_env)
    (text_to_jsonl : option (list string) -> option string -> string
                     -> M (list string))
    (config : TextContentConfig) (search_config : TextSearchConfig)
    (regenerate : bool) (filters : list filter) : M TextSearchModel :=
  let '(bi_encoder, cross_encoder, top_k) := initialize_model S search_config in
  let compressed_jsonl := resolve_absolute_path S (compressed_jsonl config) in
  jsonl_exists <- exists_file compressed_jsonl ;;
  (if negb jsonl_exists || regenerate
   then text_to_jsonl (input_files config) (input_filter config) compressed_jsonl
        ;;; ret tt
   else ret tt) ;;;
  entries <- extract_entries S compressed_jsonl ;;
  let top_k := Nat.min (List.length entries) top_k in
  let embeddings_file := resolve_absolute_path S (embeddings_file config) in
  corpus_embeddings <-
    compute_embeddings E entries bi_encoder embeddings_file regenerate ;;
  let filters := map (fun f => filter_load S f entries regenerate) filters in
  ret (Model entries corpus_embeddings bi_encoder cross_encoder filters top_k).

(* ------------------------------------------------------------------ *)
(** *** The filters of a query, one after the other *)

(** The query the filters of the list leave, each rewriting what the
    filters before it left. *)
Fixpoint filtered_query (filters_in_query : list filter) (query : string)
    (entries : list entry) : string :=
  match filters_in_query with
  | [] => query
  | f :: rest => filtered_query rest (fst (apply f query entries)) entries
  end.

(** The index sets the filters of the list return, in turn. *)
Fixpoint filter_index_sets (filters_in_query : list filter) (query : string)
    (entries : list entry) : list (list nat) :=
  match filters_in_query with
  | [] => []
  | f :: rest =>
      snd (apply f query entries)
        :: filter_index_sets rest (fst (apply f query entries)) entries
  end.

End TextSearch.

(* ------------------------------------------------------------------ *)
(** ** Sample environments and inputs *)
(* ------------------------------------------------------------------ *)

Module Sample.

Definition nl : string := String LF EmptyString.

(** [pathlib]'s suffix on a plain file name: from the last dot on. *)
Fixpoint last_suffix (s : string) : string :=
  match s with
  | EmptyString => EmptyString
  | String c s' =>
      let r := last_suffix s' in
      if is_empty r && Ascii.eqb c "."%char then s else r
  end.

(** Newline, carriage return, tab and space, with bars between them. *)
Definition escape_sequences : string :=
  String LF ("|" ++ String "013"%char ("|" ++ String "009"%char "| ")).

Definition md_env : Markdown.env :=
  Markdown.Env escape_sequences (fun p => p) (fun _ => []) (fun l => l)
               last_suffix (fun data => "gz:" ++ data).

Definition notes_fs : string -> option string :=
  fun p =>
    if String.eqb p "/notes/a.md" then Some ("# A" ++ nl ++ "text" ++ nl ++ "## B")
    else if String.eqb p "/notes/b.md" then Some ("intro" ++ nl ++ "# C")
    else None.

Definition notes_world : world := World notes_fs [].

Definition heading_first_fs : string -> option string :=
  fun p => if String.eqb p "/n.md" then Some "# A" else None.

(** A stand-in for the search library: dot-product scores of the first
    [k] rows, in corpus order. *)
Definition dot (u v : TextSearch.vec) : Q :=
  fold_right Qplus 0%Q (map (fun p => (fst p * snd p)%Q) (combine u v)).

Definition first_rows_search (q c : TextSearch.tensor) (k : nat)
  : list (list (nat * Q)) :=
  map (fun qv => firstn k (combine (seq 0 (List.length c)) (map (dot qv) c))) q.

(** A stand-in serializer that keeps the number of rows only; it reads
    back the tensors whose rows are all [[1; 0]]. *)
Definition rows_save (t : TextSearch.tensor) : string :=
  concat_all (map (fun _ => "r") t).

Definition rows_load (s : string) : option TextSearch.tensor :=
  Some (repeat [1%Q; 0%Q] (String.length s)).

Definition text_env : TextSearch.env :=
  TextSearch.Env (fun t => t) first_rows_search (@rev nat)
                 rows_save rows_load (fun p => p).

Definition unit_encoder (texts : list string) : TextSearch.tensor :=
  map (fun _ => [1%Q; 0%Q]) texts.

Definition length_scorer (pairs : list (string * string)) : list Q :=
  map (fun p => inject_Z (Z.of_nat (String.length (snd p)))) pairs.

(** A filter for queries that begin with ['+']: it drops the sign and
    keeps the entries numbered 0 and 2. *)
Definition plus_filter : TextSearch.filter :=
  TextSearch.Filter
    (fun q => match q with String "+" _ => true | _ => false end)
    (fun q _ => (match q with String _ q' => q' | EmptyString => q end,
                 [0; 2; 7])).

Definition corpus : list TextSearch.entry :=
  [TextSearch.Entry "#A" "#A" "/notes/a.md";
   TextSearch.Entry "## Bee" "## Bee" "/notes/a.md";
   TextSearch.Entry "#Sea" "#Sea" "/notes/b.md"].

Definition text_model : TextSearch.TextSearchModel :=
  TextSearch.Model corpus
    [[1%Q; 0%Q]; [3%Q; 1%Q]; [1%Q; 1%Q]]
    unit_encoder length_scorer [plus_filter] 3.

Definition empty_model : TextSearch.TextSearchModel :=
  TextSearch.Model [] [] unit_encoder length_scorer [plus_filter] 0.

(** A world without files in which nothing has happened yet. *)
Definition quiet_world : world := World (fun _ => None) [].

(** A world whose embeddings file holds two rows. *)
Definition cached_world : world :=
  World (fun p => if String.eqb p "/emb.pt" then Some "rr" else None) [].

(** The runs of [query] on the sample model for the query ["hello"]. *)
Definition hello_hits_ranked : list TextSearch.hit :=
  [TextSearch.Hit 1 3%Q (Some 6%Q); TextSearch.Hit 2 1%Q (Some 4%Q);
   TextSearch.Hit 0 1%Q (Some 2%Q)].

Definition hello_world_ranked : world :=
  World (fun _ => None)
    [BiEncoded ["hello"];
     Searched [[1%Q; 0%Q]] [[1%Q; 0%Q]; [3%Q; 1%Q]; [1%Q; 1%Q]] 3;
     CrossEncoded [("hello", "#A"); ("hello", "## Bee"); ("hello", "#Sea")]].

Definition hello_hits_unranked : list TextSearch.hit :=
  [TextSearch.Hit 1 3%Q None; TextSearch.Hit 0 1%Q None;
   TextSearch.Hit 2 1%Q None].

Definition hello_world_unranked : world :=
  World (fun _ => None)
    [BiEncoded ["hello"];
     Searched [[1%Q; 0%Q]] [[1%Q; 0%Q]; [3%Q; 1%Q]; [1%Q; 1%Q]] 3].

(** A model whose embeddings were computed when the corpus had one entry. *)
Definition stale_model : TextSearch.TextSearchModel :=
  TextSearch.Model corpus [[1%Q; 0%Q]] unit_encoder length_scorer [] 3.

(** A stand-in for the float format: numerator and denominator. *)
Definition show_fraction (q : Q) : string :=
  str_of_int (Qnum q) ++ "/" ++ str_of_int (Z.pos (Qden q)).

(** The sample environment with a loader that rejects the two-row file
    of [cached_world]. *)
Definition strict_env : TextSearch.env :=
  TextSearch.Env (fun t => t) first_rows_search (@rev nat)
                 rows_save (fun s => if String.eqb s "rr"
                                     then None else rows_load s)
                 (fun p => p).

(** A stand-in for the JSON Lines decoder: one entry for each line, the
    line being its text. *)
Definition line_entries (content : string) : exn + list TextSearch.entry :=
  inr (map (fun l => TextSearch.Entry l l EmptyString)
           (removelast (lines content))).

Definition setup_env : TextSearch.setup_env :=
  TextSearch.SetupEnv (fun p => p) (fun _ _ => unit_encoder)
                      (fun _ _ => length_scorer) line_entries (fun f _ _ => f).

Definition content_config : TextSearch.TextContentConfig :=
  TextSearch.ContentConfig (Some ["/notes/a.md"; "/notes/b.md"]) None
                           "/out/notes.jsonl" "/emb.pt".

Definition search_config : TextSearch.TextSearchConfig :=
  TextSearch.SearchConfig "bi" "cross" "/models".

(** A world in which the notes have been converted already. *)
Definition converted_world : world :=
  World (fun p => if String.eqb p "/out/notes.jsonl"
                  then Some ("one" ++ nl ++ "two" ++ nl)
                  else notes_fs p) [].

End Sample.

(* ------------------------------------------------------------------ *)
(** * Properties *)
(* ------------------------------------------------------------------ *)

(** ** The monad *)

Ltac run_m :=
  unfold bind, ret, raise, lift, emit, print, exit, write_file; simpl.

Lemma bind_inr {A B} (m : M A) (k : A -> M B) w a w' :
  m w = (inr a, w') -> bind m k w = k a w'.
Proof. intros H. unfold bind. rewrite H. reflexivity. Qed.

Lemma bind_inl {A B} (m : M A) (k : A -> M B) w e w' :
  m w = (inl e, w') -> bind m k w = (inl e, w').
Proof. intros H. unfold bind. rewrite H. reflexivity. Qed.

(** ** Strings *)

Section StrFacts.

Lemma re_split_heading_nonempty s : forall bol, re_split_heading bol s <> [].
Proof.
  induction s as [|c s IH]; intros bol; simpl; [discriminate|].
  destruct (bol && Ascii.eqb c HASH); [discriminate|].
  destruct (re_split_heading (Ascii.eqb c LF) s); discriminate.
Qed.

Lemma lines_nonempty s : lines s <> [].
Proof.
  induction s as [|c s IH]; simpl; [discriminate|].
  destruct (Ascii.eqb c LF); [discriminate|].
  destruct (lines s); discriminate.
Qed.

(** The first line of a text begins with ['#'] exactly when the text does. *)
Lemma first_line_starts s :
  starts_with_hash (hd EmptyString (lines s)) = starts_with_hash s.
Proof.
  destruct s as [|c s]; simpl; [reflexivity|].
  destruct (Ascii.eqb c LF) eqn:E; simpl.
  - apply Ascii.eqb_eq in E. subst c. reflexivity.
  - destruct (lines s); reflexivity.
Qed.

Lemma heading_lines_split s :
  heading_lines s = (if starts_with_hash s then 1 else 0) + later_headings s.
Proof.
  unfold heading_lines, later_headings.
  rewrite <- first_line_starts.
  pose proof (lines_nonempty s) as Hne.
  destruct (lines s) as [|l ls]; [congruence|]. simpl.
  destruct (starts_with_hash l); reflexivity.
Qed.

Lemma later_headings_cons c s :
  later_headings (String c s) =
  if Ascii.eqb c LF then heading_lines s else later_headings s.
Proof.
  unfold later_headings, heading_lines. simpl.
  destruct (Ascii.eqb c LF); [reflexivity|].
  pose proof (lines_nonempty s) as Hne.
  destruct (lines s); [congruence | reflexivity].
Qed.

Lemma length_cons_head (c : ascii) (l : list string) :
  l <> [] ->
  List.length (match l with
               | piece :: pieces => String c piece :: pieces
               | [] => [String c EmptyString]
               end) = List.length l.
Proof. destruct l; [congruence | reflexivity]. Qed.

Lemma re_split_heading_length s :
  List.length (re_split_heading true s) = S (heading_lines s) /\
  List.length (re_split_heading false s) = S (later_headings s).
Proof.
  induction s as [|c s [IHt IHf]]; [split; reflexivity|].
  rewrite heading_lines_split, later_headings_cons. simpl.
  destruct (Ascii.eqb c HASH) eqn:Eh.
  - apply Ascii.eqb_eq in Eh. subst c.
    change (Ascii.eqb HASH LF) with false. simpl.
    rewrite length_cons_head by apply re_split_heading_nonempty.
    rewrite IHf. auto.
  - rewrite !length_cons_head by apply re_split_heading_nonempty.
    destruct (Ascii.eqb c LF); simpl; rewrite ?IHt, ?IHf; auto.
Qed.

(** Splitting on heading lines gives one piece more than there are
    heading lines. *)
Lemma re_split_heading_count s :
  List.length (re_split_heading true s) = S (heading_lines s).
Proof. apply re_split_heading_length. Qed.

End StrFacts.

(** ** JSON text holds no raw newline *)

Section JsonFacts.

Lemma mem_append c s t : mem c (s ++ t) = mem c s || mem c t.
Proof.
  induction s as [|d s IH]; simpl; [reflexivity|].
  rewrite IH. apply orb_assoc.
Qed.

Lemma escape_char_no_lf c : mem LF (Json.escape_char c) = false.
Proof. destruct c as [[] [] [] [] [] [] [] []]; reflexivity. Qed.

Lemma escape_no_lf s : mem LF (Json.escape s) = false.
Proof.
  induction s as [|c s IH]; simpl; [reflexivity|].
  rewrite mem_append, escape_char_no_lf, IH. reflexivity.
Qed.

Lemma encode_str_no_lf s : mem LF (Json.encode_str s) = false.
Proof.
  unfold Json.encode_str. simpl.
  rewrite mem_append, escape_no_lf. reflexivity.
Qed.

Lemma encode_item_no_lf kv : mem LF (Json.encode_item kv) = false.
Proof.
  unfold Json.encode_item.
  rewrite !mem_append, !encode_str_no_lf. reflexivity.
Qed.

Lemma join_no_lf sep parts :
  mem LF sep = false ->
  Forall (fun p => mem LF p = false) parts ->
  mem LF (join sep parts) = false.
Proof.
  intros Hsep Hparts.
  induction Hparts as [|p ps Hp Hps IH]; [reflexivity|].
  destruct ps as [|q ps]; [exact Hp|].
  change (join sep (p :: q :: ps)) with (p ++ sep ++ join sep (q :: ps)).
  rewrite !mem_append, Hp, Hsep, IH. reflexivity.
Qed.

Lemma dumps_no_lf d : mem LF (Json.dumps d) = false.
Proof.
  unfold Json.dumps.
  rewrite !mem_append, join_no_lf; [reflexivity | reflexivity |].
  apply Forall_forall. intros p Hp.
  apply in_map_iff in Hp. destruct Hp as [kv [<- _]].
  apply encode_item_no_lf.
Qed.

(** A text without newline followed by a newline is one line. *)
Lemma lines_append_lf s t :
  mem LF s = false -> lines (s ++ String LF t) = s :: lines t.
Proof.
  induction s as [|c s IH]; intros H.
  - reflexivity.
  - change (mem LF (String c s)) with (Ascii.eqb LF c || mem LF s) in H.
    apply orb_false_iff in H. destruct H as [Hc Hs].
    rewrite Ascii.eqb_sym in Hc.
    cbn [append lines]. rewrite Hc, (IH Hs). reflexivity.
Qed.

Lemma append_assoc (s t u : string) : (s ++ t) ++ u = s ++ t ++ u.
Proof. induction s as [|c s IH]; simpl; [reflexivity | now rewrite IH]. Qed.

Lemma append_empty_r (s : string) : s ++ EmptyString = s.
Proof. induction s as [|c s IH]; simpl; [reflexivity | now rewrite IH]. Qed.

Lemma jsonl_of_records_app r1 r2 :
  Markdown.jsonl_of_records (r1 ++ r2) =
  Markdown.jsonl_of_records r1 ++ Markdown.jsonl_of_records r2.
Proof.
  unfold Markdown.jsonl_of_records, concat_all.
  induction r1 as [|d r1 IH]; cbn [app map fold_right]; [reflexivity|].
  rewrite IH, !append_assoc. reflexivity.
Qed.

(** The lines of JSON Lines text are the serialized records, followed by
    the empty text after the last newline. *)
Lemma lines_jsonl_of_records records :
  lines (Markdown.jsonl_of_records records) =
  (map Json.dumps records ++ [EmptyString])%list.
Proof.
  unfold Markdown.jsonl_of_records, concat_all.
  induction records as [|d rs IH]; cbn [app map fold_right]; [reflexivity|].
  rewrite append_assoc. cbn [append].
  rewrite lines_append_lf by apply dumps_no_lf.
  rewrite IH. reflexivity.
Qed.

End JsonFacts.

(** ** Computations that write nothing *)

Section WritesNothing.

Lemma writes_nothing_ret {A} (a : A) : writes_nothing (ret a).
Proof. intros w. split; [reflexivity|]. exists []. now rewrite app_nil_r. Qed.

Lemma writes_nothing_lift {A} (r : exn + A) : writes_nothing (lift r).
Proof. intros w. split; [reflexivity|]. exists []. now rewrite app_nil_r. Qed.

Lemma writes_nothing_raise {A} (e : exn) : writes_nothing (@raise A e).
Proof. apply writes_nothing_lift. Qed.

Lemma writes_nothing_emit e : is_write e = false -> writes_nothing (emit e).
Proof. intros H w. split; [reflexivity|]. exists [e]. auto. Qed.

Lemma writes_nothing_read_file path : writes_nothing (read_file path).
Proof.
  intros w. unfold read_file. destruct (files w path); simpl.
  - split; [reflexivity|]. exists [FileRead path]. auto.
  - split; [reflexivity|]. exists []. now rewrite app_nil_r.
Qed.

Lemma writes_nothing_bind {A B} (m : M A) (k : A -> M B) :
  writes_nothing m -> (forall a, writes_nothing (k a)) ->
  writes_nothing (bind m k).
Proof.
  intros Hm Hk w. unfold bind.
  destruct (Hm w) as [Hf [evs [Hl Hev]]].
  destruct (m w) as [[e|a] w1]; simpl in *.
  - split; [exact Hf|]. exists evs. auto.
  - destruct (Hk a w1) as [Hf' [evs' [Hl' Hev']]].
    split; [congruence|].
    exists (evs ++ evs')%list. rewrite Hl', Hl, app_assoc. split; [reflexivity|].
    apply Forall_app. auto.
Qed.

End WritesNothing.

Create HintDb effects.
#[local] Hint Resolve writes_nothing_ret writes_nothing_lift writes_nothing_raise
  writes_nothing_read_file writes_nothing_bind : effects.

(** ** The converter *)

Section MarkdownFacts.

Import Markdown.
Variable E : Markdown.env.

Lemma skipn_nth_error {A} (l : list A) :
  forall i, i < List.length l ->
  exists x, nth_error l i = Some x /\ skipn i l = x :: skipn (S i) l.
Proof.
  induction l as [|y l IH]; intros i Hi; simpl in Hi; [lia|].
  destruct i as [|i].
  - exists y. auto.
  - destruct (IH i) as [x [Hn Hs]]; [lia|]. exists x. auto.
Qed.

Lemma jsonl_of_records_cons d records :
  jsonl_of_records (d :: records) =
  (Json.dumps d ++ String LF EmptyString) ++ jsonl_of_records records.
Proof. reflexivity. Qed.

(** The conversion loop appends one line per remaining entry, pairing the
    entry numbered [entry_id + k] with the file at that position. *)
Lemma convert_loop_ok entry_to_file_map :
  forall entries entry_id jsonl,
    entry_id + List.length entries <= List.length entry_to_file_map ->
    convert_loop entry_id entries entry_to_file_map jsonl =
    inr (jsonl ++ jsonl_of_records
                    (map (fun ef => entry_dict (fst ef) (snd ef))
                         (combine entries (skipn entry_id entry_to_file_map)))).
Proof.
  induction entries as [|entry rest IH]; intros entry_id jsonl Hlen.
  - simpl. now rewrite append_empty_r.
  - simpl in Hlen.
    destruct (@skipn_nth_error _ entry_to_file_map entry_id) as [f [Hn Hs]]; [lia|].
    cbn [convert_loop]. rewrite Hn, Hs, IH by lia.
    cbn [combine map fst snd]. rewrite jsonl_of_records_cons.
    now rewrite !append_assoc.
Qed.

Lemma combine_repeat {A B} (l : list A) (b : B) :
  combine l (repeat b (List.length l)) = map (fun a => (a, b)) l.
Proof. induction l as [|a l IH]; simpl; [reflexivity | now rewrite IH]. Qed.

Lemma map_fst_combine {A B C} (g : A -> C) (l : list A) (m : list B) :
  List.length l <= List.length m ->
  map (fun ab => g (fst ab)) (combine l m) = map g l.
Proof.
  revert m. induction l as [|a l IH]; intros [|b m] H; simpl in *;
    try reflexivity; try lia.
  now rewrite IH by lia.
Qed.

Lemma combine_append {A B} (l1 l2 : list A) (m1 m2 : list B) :
  List.length l1 = List.length m1 ->
  combine (l1 ++ l2) (m1 ++ m2) = (combine l1 m1 ++ combine l2 m2)%list.
Proof.
  revert m1. induction l1 as [|a l1 IH]; intros [|b m1] H; simpl in *;
    try discriminate; [reflexivity|].
  now rewrite IH by lia.
Qed.

Lemma extract_loop_ok paths :
  forall w entries entry_to_file_map,
    Forall (fun p => files w p <> None) paths ->
    extract_loop E paths entries entry_to_file_map w =
    (inr ((entries ++ entries_of E w paths)%list,
          (entry_to_file_map ++ files_of E w paths)%list),
     World (files w) (log w ++ map FileRead paths)%list).
Proof.
  induction paths as [|p paths IH]; intros w entries mp Hall.
  - simpl. unfold ret. rewrite !app_nil_r. now destruct w.
  - inversion Hall as [|? ? Hp Hrest]; subst.
    cbn [extract_loop]. unfold bind, read_file, entries_of, files_of, content_of.
    destruct (files w p) as [content|] eqn:Hc; [|congruence].
    rewrite IH by exact Hrest.
    cbn [files log flat_map map]. unfold entries_of, files_of, content_of.
    cbn [files]. rewrite Hc, <- !app_assoc. reflexivity.
Qed.

Lemma combine_entries_files w paths :
  map (fun ef => entry_dict (fst ef) (snd ef))
      (combine (entries_of E w paths) (files_of E w paths)) =
  flat_map (fun p => records_of_file E p (content_of w p)) paths.
Proof.
  unfold entries_of, files_of.
  induction paths as [|p paths IH]; [reflexivity|].
  cbn [flat_map].
  rewrite combine_append by now rewrite repeat_length.
  rewrite map_app, IH, combine_repeat, map_map. reflexivity.
Qed.

Lemma length_entries_files w paths :
  List.length (entries_of E w paths) = List.length (files_of E w paths).
Proof.
  unfold entries_of, files_of.
  induction paths as [|p paths IH]; [reflexivity|].
  cbn [flat_map]. now rewrite !length_app, repeat_length, IH.
Qed.

Lemma extract_loop_lengths paths :
  forall w entries mp entries' mp' w',
    List.length entries = List.length mp ->
    extract_loop E paths entries mp w = (inr (entries', mp'), w') ->
    List.length entries' = List.length mp'.
Proof.
  induction paths as [|p paths IH]; intros w entries mp entries' mp' w' Hlen Hrun.
  - cbn in Hrun. inversion Hrun; subst. exact Hlen.
  - cbn [extract_loop] in Hrun. unfold bind, read_file in Hrun.
    destruct (files w p) as [content|]; [|discriminate].
    eapply IH; [|exact Hrun].
    now rewrite !length_app, repeat_length, Hlen.
Qed.

Lemma writes_nothing_extract_loop paths :
  forall entries mp, writes_nothing (extract_loop E paths entries mp).
Proof.
  induction paths as [|p paths IH]; intros entries mp; cbn [extract_loop];
    auto with effects.
Qed.

Lemma writes_nothing_get_markdown_files fs flt :
  writes_nothing (get_markdown_files E fs flt).
Proof.
  unfold get_markdown_files.
  apply writes_nothing_bind; [|auto with effects].
  destruct flt as [[|c p]|]; auto with effects.
  apply writes_nothing_bind; [|auto with effects].
  now apply writes_nothing_emit.
Qed.

Lemma entries_start_with_hash content :
  Forall (fun e => starts_with_hash e = true)
         (markdown_entries_per_file E content).
Proof.
  unfold markdown_entries_per_file.
  apply Forall_forall. intros e He.
  apply in_map_iff in He. destruct He as [piece [<- _]]. reflexivity.
Qed.

Lemma entries_per_file_count content :
  List.length (markdown_entries_per_file E content) = S (heading_lines content).
Proof.
  unfold markdown_entries_per_file.
  rewrite length_map. apply re_split_heading_count.
Qed.

End MarkdownFacts.

(** ** Claims about the converter *)

Section MarkdownClaims.

Import Markdown.

(** C2, as stated, fails: a file that begins with its only heading has one
    heading line and nothing before it, and yields two entries, the first
    being the bare ['#'] made from the empty piece before the heading. *)
Lemma extract_entries_count_counterexample :
  let content := "# A" in
  let w := World Sample.heading_first_fs [] in
  heading_lines content = 1 /\
  starts_with_hash content = true /\
  fst (extract_markdown_entries Sample.md_env ["/n.md"] w) =
    inr (["#"; "#A"], ["/n.md"; "/n.md"]) /\
  List.length (markdown_entries_per_file Sample.md_env content)
    <> heading_lines content.
Proof. vm_compute. repeat split; try reflexivity. discriminate. Qed.

(** C2 (amended): when every file can be read, [extract_markdown_entries]
    returns, file by file, exactly one entry more than the file has lines
    beginning with ['#'] (the first entry is made from the text before the
    first heading, empty or not), and every entry starts with ['#']. *)
Theorem extract_entries_count (E : env) (w : world) (paths : list string) :
  Forall (fun p => files w p <> None) paths ->
  exists entries entry_to_file_map w',
    extract_markdown_entries E paths w = (inr (entries, entry_to_file_map), w') /\
    entries = flat_map (fun p => markdown_entries_per_file E (content_of w p)) paths /\
    (forall p, List.length (markdown_entries_per_file E (content_of w p))
               = S (heading_lines (content_of w p))) /\
    Forall (fun e => starts_with_hash e = true) entries.
Proof.
  intros Hall.
  eexists _, _, _. split; [|split; [|split]].
  - unfold extract_markdown_entries. rewrite extract_loop_ok by exact Hall.
    reflexivity.
  - reflexivity.
  - intros p. apply entries_per_file_count.
  - apply Forall_flat_map, Forall_forall. intros p _.
    apply entries_start_with_hash.
Qed.

Lemma extract_entries_count_witness :
  exists entries entry_to_file_map w',
    extract_markdown_entries Sample.md_env ["/notes/a.md"; "/notes/b.md"]
      Sample.notes_world = (inr (entries, entry_to_file_map), w') /\
    entries = flat_map (fun p => markdown_entries_per_file Sample.md_env
                                   (content_of Sample.notes_world p))
                       ["/notes/a.md"; "/notes/b.md"] /\
    (forall p, List.length (markdown_entries_per_file Sample.md_env
                              (content_of Sample.notes_world p))
               = S (heading_lines (content_of Sample.notes_world p))) /\
    Forall (fun e => starts_with_hash e = true) entries.
Proof.
  apply (@extract_entries_count Sample.md_env Sample.notes_world
           ["/notes/a.md"; "/notes/b.md"]).
  repeat constructor; vm_compute; discriminate.
Defined.

(** C6: when every file can be read, the JSON Lines text built from the
    extracted entries is the concatenation, file by file, of the records
    of that file, and the [file] field of each of them is the path of that
    file. *)
Theorem file_field_is_source_path (E : env) (w : world) (paths : list string) :
  Forall (fun p => files w p <> None) paths ->
  exists entries entry_to_file_map w',
    extract_markdown_entries E paths w = (inr (entries, entry_to_file_map), w') /\
    convert_markdown_entries_to_jsonl entries entry_to_file_map =
      inr (jsonl_of_records
             (flat_map (fun p => records_of_file E p (content_of w p)) paths)) /\
    forall p d, In d (records_of_file E p (content_of w p)) ->
                Json.lookup "file" d = Some p.
Proof.
  intros Hall.
  eexists _, _, _. split; [|split].
  - unfold extract_markdown_entries. rewrite extract_loop_ok by exact Hall.
    reflexivity.
  - unfold convert_markdown_entries_to_jsonl. cbn [app].
    rewrite convert_loop_ok by (cbn [skipn]; rewrite length_entries_files; lia).
    cbn [skipn append]. now rewrite combine_entries_files.
  - intros p d Hd. unfold records_of_file in Hd.
    apply in_map_iff in Hd. destruct Hd as [entry [<- _]]. reflexivity.
Qed.

Lemma file_field_is_source_path_witness :
  exists entries entry_to_file_map w',
    extract_markdown_entries Sample.md_env ["/notes/a.md"; "/notes/b.md"]
      Sample.notes_world = (inr (entries, entry_to_file_map), w') /\
    convert_markdown_entries_to_jsonl entries entry_to_file_map =
      inr (jsonl_of_records
             (flat_map (fun p => records_of_file Sample.md_env p
                                   (content_of Sample.notes_world p))
                       ["/notes/a.md"; "/notes/b.md"])) /\
    forall p d, In d (records_of_file Sample.md_env p
                        (content_of Sample.notes_world p)) ->
                Json.lookup "file" d = Some p.
Proof.
  apply (@file_field_is_source_path Sample.md_env Sample.notes_world
           ["/notes/a.md"; "/notes/b.md"]).
  repeat constructor; vm_compute; discriminate.
Defined.

(** C7: given a file for every entry, [convert_markdown_entries_to_jsonl]
    returns the concatenation of one newline-terminated JSON record per
    entry, in entry order; each record has exactly the fields [compiled],
    [raw] and [file], and each line of the text is one record. *)
Theorem convert_one_record_per_entry (entries entry_to_file_map : list string) :
  List.length entries <= List.length entry_to_file_map ->
  let records := map (fun ef => entry_dict (fst ef) (snd ef))
                     (combine entries entry_to_file_map) in
  convert_markdown_entries_to_jsonl entries entry_to_file_map =
    inr (jsonl_of_records records) /\
  map (Json.lookup "compiled") records = map Some entries /\
  map (Json.lookup "raw") records = map Some entries /\
  Forall (fun d => Json.keys d = ["compiled"; "raw"; "file"]) records /\
  lines (jsonl_of_records records) =
    (map Json.dumps records ++ [EmptyString])%list.
Proof.
  intros Hlen records. split; [|split; [|split; [|split]]].
  - unfold convert_markdown_entries_to_jsonl.
    now rewrite convert_loop_ok by (cbn [Nat.add]; exact Hlen).
  - subst records. rewrite map_map.
    exact (map_fst_combine (@Some string) entries entry_to_file_map Hlen).
  - subst records. rewrite map_map.
    exact (map_fst_combine (@Some string) entries entry_to_file_map Hlen).
  - subst records. apply Forall_forall. intros d Hd.
    apply in_map_iff in Hd. destruct Hd as [ef [<- _]]. reflexivity.
  - apply lines_jsonl_of_records.
Qed.

Lemma convert_one_record_per_entry_witness :
  let records := map (fun ef => entry_dict (fst ef) (snd ef))
                     (combine ["# A"; "# B"] ["/a.md"; "/b.md"]) in
  convert_markdown_entries_to_jsonl ["# A"; "# B"] ["/a.md"; "/b.md"] =
    inr (jsonl_of_records records) /\
  map (Json.lookup "compiled") records = map Some ["# A"; "# B"] /\
  map (Json.lookup "raw") records = map Some ["# A"; "# B"] /\
  Forall (fun d => Json.keys d = ["compiled"; "raw"; "file"]) records /\
  lines (jsonl_of_records records) =
    (map Json.dumps records ++ [EmptyString])%list.
Proof.
  apply (@convert_one_record_per_entry ["# A"; "# B"] ["/a.md"; "/b.md"]).
  simpl. lia.
Defined.

End MarkdownClaims.

Section MarkdownRunClaims.

Import Markdown.
Variable E : Markdown.env.

(** C8: when both the file list and the filter are none or empty,
    [markdown_to_jsonl] prints the message and exits with status 1; the
    print is the only event of the run (no file is looked up or read) and
    the files are as they were. *)
Theorem markdown_to_jsonl_requires_input
    (markdown_files : option (list string)) (markdown_file_filter : option string)
    (output_file : string) (w : world) :
  is_none_or_empty (@List.length string) markdown_files = true ->
  is_none_or_empty String.length markdown_file_filter = true ->
  markdown_to_jsonl E markdown_files markdown_file_filter output_file w =
    (inl (SystemExit 1),
     World (files w) (log w ++ [Printed required_msg])%list).
Proof.
  intros Hf Hflt. unfold markdown_to_jsonl. rewrite Hf, Hflt. reflexivity.
Qed.

(** C10: with an output suffix other than [.gz] and [.jsonl],
    [markdown_to_jsonl] writes no file, however the run ends; and once
    the input is accepted and the entries are extracted, it returns them. *)
Theorem markdown_to_jsonl_unsupported_suffix
    (markdown_files : option (list string)) (markdown_file_filter : option string)
    (output_file : string) :
  suffix E output_file <> ".gz" ->
  suffix E output_file <> ".jsonl" ->
  writes_nothing
    (markdown_to_jsonl E markdown_files markdown_file_filter output_file) /\
  forall w files_to_process w1 entries entry_to_file_map w2,
    is_none_or_empty (@List.length string) markdown_files
      && is_none_or_empty String.length markdown_file_filter = false ->
    get_markdown_files E markdown_files markdown_file_filter w
      = (inr files_to_process, w1) ->
    extract_markdown_entries E files_to_process w1
      = (inr (entries, entry_to_file_map), w2) ->
    markdown_to_jsonl E markdown_files markdown_file_filter output_file w
      = (inr entries, w2).
Proof.
  intros Hgz Hjsonl.
  apply String.eqb_neq in Hgz. apply String.eqb_neq in Hjsonl.
  split.
  - unfold markdown_to_jsonl. rewrite Hgz, Hjsonl.
    apply writes_nothing_bind.
    { match goal with |- context [if ?b then _ else _] => destruct b end;
        [|auto with effects].
      apply writes_nothing_bind; [|intros; apply writes_nothing_raise].
      now apply writes_nothing_emit. }
    intros _. apply writes_nothing_bind.
    { apply writes_nothing_get_markdown_files. }
    intros fs. apply writes_nothing_bind.
    { apply writes_nothing_extract_loop. }
    intros [entries mp]. auto with effects.
  - intros w fs w1 entries mp w2 Hin Hget Hext.
    unfold markdown_to_jsonl. rewrite Hin, Hgz, Hjsonl.
    unfold bind at 1. cbn [ret].
    rewrite (bind_inr _ _ _ Hget), (bind_inr _ _ _ Hext).
    unfold convert_markdown_entries_to_jsonl.
    rewrite convert_loop_ok.
    + reflexivity.
    + cbn [Nat.add].
      unfold extract_markdown_entries in Hext.
      now rewrite (extract_loop_lengths E _ _ [] [] eq_refl Hext).
Qed.

End MarkdownRunClaims.

Lemma markdown_to_jsonl_requires_input_witness :
  Markdown.markdown_to_jsonl Sample.md_env (Some []) None "/out/notes.jsonl.gz"
                             Sample.notes_world =
    (inl (SystemExit 1),
     World (files Sample.notes_world)
           (log Sample.notes_world ++ [Printed Markdown.required_msg])%list).
Proof.
  apply (@markdown_to_jsonl_requires_input Sample.md_env (Some []) None
           "/out/notes.jsonl.gz" Sample.notes_world); reflexivity.
Defined.

Lemma markdown_to_jsonl_unsupported_suffix_witness :
  writes_nothing
    (Markdown.markdown_to_jsonl Sample.md_env (Some ["/notes/a.md"]) None
                                "/out/notes.txt") /\
  Markdown.markdown_to_jsonl Sample.md_env (Some ["/notes/a.md"]) None
                             "/out/notes.txt" Sample.notes_world
    = (inr ["#"; "#A" ++ Sample.nl ++ "text"; "## B"],
       World Sample.notes_fs [FileRead "/notes/a.md"]).
Proof.
  destruct (@markdown_to_jsonl_unsupported_suffix Sample.md_env
              (Some ["/notes/a.md"]) None "/out/notes.txt") as [Hw Hrun].
  - vm_compute. discriminate.
  - vm_compute. discriminate.
  - split; [exact Hw|].
    apply (Hrun Sample.notes_world ["/notes/a.md"] Sample.notes_world
                _ ["/notes/a.md"; "/notes/a.md"; "/notes/a.md"]); reflexivity.
Defined.

(** ** Sorting *)

Section SortFacts.

Import PySort.

Lemma in_insert {A} (leb : A -> A -> bool) x y l :
  In y (insert leb x l) <-> y = x \/ In y l.
Proof.
  induction l as [|z l IH]; simpl.
  - intuition.
  - destruct (leb x z); simpl; [intuition|].
    rewrite IH. intuition.
Qed.

Lemma in_stable_sort {A} (leb : A -> A -> bool) y l :
  In y (stable_sort leb l) <-> In y l.
Proof.
  induction l as [|x l IH]; simpl; [reflexivity|].
  rewrite in_insert, IH. intuition.
Qed.

Lemma strongly_sorted_app {A} (R : A -> A -> Prop) l1 l2 :
  StronglySorted R l1 -> StronglySorted R l2 ->
  (forall a b, In a l1 -> In b l2 -> R a b) ->
  StronglySorted R (l1 ++ l2)%list.
Proof.
  induction l1 as [|x l1 IH]; intros H1 H2 H12; simpl; [exact H2|].
  inversion H1 as [|? ? Hs Hf]; subst.
  constructor.
  - apply IH; auto. intros a b Ha Hb. apply H12; simpl; auto.
  - apply Forall_app. split; [exact Hf|].
    apply Forall_forall. intros b Hb. apply H12; simpl; auto.
Qed.

Lemma strongly_sorted_in {A} (R : A -> A -> Prop) x l :
  StronglySorted R (x :: l) -> forall y, In y l -> R x y.
Proof.
  intros H. inversion H as [|? ? _ Hf]; subst.
  now apply Forall_forall.
Qed.

(** Reversing a sorted list sorts it the other way round. *)
Lemma strongly_sorted_rev {A} (R : A -> A -> Prop) l :
  StronglySorted R l -> StronglySorted (fun a b => R b a) (rev l).
Proof.
  induction 1 as [|x l Hs IH Hf]; simpl; [constructor|].
  apply strongly_sorted_app; [exact IH | repeat constructor |].
  intros a b Ha [<-|[]]. apply in_rev in Ha.
  rewrite Forall_forall in Hf. auto.
Qed.

(** Weakening the order, on the elements of the list. *)
Lemma strongly_sorted_weaken {A} (R R' : A -> A -> Prop) l :
  (forall a b, In a l -> In b l -> R a b -> R' a b) ->
  StronglySorted R l -> StronglySorted R' l.
Proof.
  intros Himp H. induction H as [|x l Hs IH Hf]; constructor.
  - apply IH. intros a b Ha Hb. apply Himp; simpl; auto.
  - rewrite Forall_forall in *. intros y Hy.
    apply Himp; simpl; auto.
Qed.

Lemma strongly_sorted_map {A B} (f : B -> A) (R : A -> A -> Prop) l :
  StronglySorted (fun a b => R (f a) (f b)) l -> StronglySorted R (map f l).
Proof.
  induction 1 as [|x l Hs IH Hf]; simpl; constructor; [exact IH|].
  rewrite Forall_forall in *. intros y Hy.
  apply in_map_iff in Hy. destruct Hy as [b [<- Hb]]. auto.
Qed.

Lemma strongly_sorted_unmap {A B} (f : B -> A) (R : A -> A -> Prop) l :
  StronglySorted R (map f l) -> StronglySorted (fun a b => R (f a) (f b)) l.
Proof.
  induction l as [|x l IH]; simpl; intros H; [constructor|].
  inversion H as [|? ? Hs Hf]; subst. constructor; [auto|].
  rewrite Forall_forall in *. intros y Hy. apply Hf. now apply in_map.
Qed.

Variable A : Type.
Variable T : Q * A -> Q * A -> Prop.

(** Inserting [x] in front of its equals keeps the list sorted by key,
    ties by [T], when [x] is [T]-before every element. *)
Lemma insert_lex x l :
  StronglySorted (lex_asc T) l -> Forall (T x) l ->
  StronglySorted (lex_asc T) (insert key_leb x l).
Proof.
  induction l as [|y l IH]; intros Hs Hx; simpl.
  - repeat constructor.
  - inversion Hs as [|? ? Hs' Hy]; subst.
    inversion Hx as [|? ? Hxy Hxl]; subst.
    unfold key_leb at 1. destruct (Qle_bool (fst x) (fst y)) eqn:Hle.
    + apply Qle_bool_iff in Hle.
      constructor; [exact Hs|].
      assert (Hall : forall z, In z (y :: l) -> (fst x <= fst z)%Q).
      { intros z [<-|Hz]; [exact Hle|].
        rewrite Forall_forall in Hy. destruct (Hy z Hz) as [Hlt|[Heq _]].
        - apply Qlt_le_weak. eapply Qle_lt_trans; eauto.
        - rewrite <- Heq. exact Hle. }
      apply Forall_forall. intros z Hz.
      rewrite Forall_forall in Hx.
      destruct (Qle_lt_or_eq _ _ (Hall z Hz)) as [Hlt|Heq];
        [left; exact Hlt | right; split; [exact Heq | auto]].
    + assert (Hlt : (fst y < fst x)%Q).
      { apply Qnot_le_lt. intros Hc. apply Qle_bool_iff in Hc. congruence. }
      constructor; [apply IH; assumption|].
      apply Forall_forall. intros z Hz. apply in_insert in Hz.
      destruct Hz as [->|Hz]; [left; exact Hlt|].
      rewrite Forall_forall in Hy. auto.
Qed.

(** A stable sort of a list ordered by [T] orders it by key, ties by [T]. *)
Lemma stable_sort_lex l :
  StronglySorted T l -> StronglySorted (lex_asc T) (stable_sort key_leb l).
Proof.
  induction 1 as [|x l Hs IH Hf]; simpl; [constructor|].
  apply insert_lex; [exact IH|].
  rewrite Forall_forall in *. intros y Hy. apply Hf.
  now apply in_stable_sort in Hy.
Qed.

End SortFacts.

Section SortReverseFacts.

Import PySort.
Variable A : Type.
Variable key : A -> exn + Q.

Lemma decorate_inr l kl :
  decorate key l = inr kl ->
  map snd kl = l /\ Forall (fun p => key (snd p) = inr (fst p)) kl.
Proof.
  revert kl. induction l as [|x l IH]; simpl; intros kl H.
  - inversion H; subst. split; constructor.
  - destruct (key x) as [e|k] eqn:Hk; [discriminate|].
    destruct (decorate key l) as [e|kl'] eqn:Hd; [discriminate|].
    inversion H; subst. destruct (IH kl' eq_refl) as [Hm Hf].
    split; simpl; [now rewrite Hm | constructor; auto].
Qed.

Lemma decorate_total l :
  (forall x, In x l -> exists k, key x = inr k) ->
  exists kl, decorate key l = inr kl.
Proof.
  induction l as [|x l IH]; simpl; intros H; [eauto|].
  destruct (H x) as [k Hk]; [auto|]. rewrite Hk.
  destruct IH as [kl Hkl]; [auto|]. rewrite Hkl. eauto.
Qed.

Lemma decorate_keys l kl :
  decorate key l = inr kl -> forall x, In x l -> exists k, key x = inr k.
Proof.
  intros H x Hx. destruct (decorate_inr _ H) as [Hm Hf].
  rewrite <- Hm in Hx. apply in_map_iff in Hx. destruct Hx as [p [<- Hp]].
  rewrite Forall_forall in Hf. eauto.
Qed.

(** Sorting keeps the elements. *)
Lemma sort_reverse_in l l' :
  sort_reverse key l = inr l' -> forall x, In x l' <-> In x l.
Proof.
  unfold sort_reverse. intros H x.
  destruct (decorate key l) as [e|kl] eqn:Hd; [discriminate|].
  inversion H; subst. destruct (decorate_inr _ Hd) as [Hm _].
  rewrite <- Hm, !in_map_iff.
  split; intros [p [Hp Hin]]; exists p; split; auto.
  - rewrite <- in_rev, in_stable_sort, <- in_rev in Hin. exact Hin.
  - rewrite <- in_rev, in_stable_sort, <- in_rev. exact Hin.
Qed.

(** Sorting returns when every key can be computed. *)
Lemma sort_reverse_total l :
  (forall x, In x l -> exists k, key x = inr k) ->
  exists l', sort_reverse key l = inr l'.
Proof.
  intros H. unfold sort_reverse.
  destruct (decorate_total _ H) as [kl ->]. eauto.
Qed.

(** [sort_reverse] orders by falling key; elements with equal keys stay in
    the order they had, so an order [R] of the input survives among them. *)
Lemma sort_reverse_sorted (R : A -> A -> Prop) l l' :
  sort_reverse key l = inr l' ->
  StronglySorted R l ->
  StronglySorted (desc_then key R) l'.
Proof.
  unfold sort_reverse. intros H HR.
  destruct (decorate key l) as [e|kl] eqn:Hd; [discriminate|].
  inversion H; subst. destruct (decorate_inr _ Hd) as [Hm Hkeys].
  rewrite <- Hm in HR. apply strongly_sorted_unmap in HR.
  apply strongly_sorted_rev in HR.
  apply (@stable_sort_lex A (fun p q => R (snd q) (snd p))) in HR.
  apply strongly_sorted_rev in HR.
  apply strongly_sorted_map.
  eapply strongly_sorted_weaken; [|exact HR].
  intros p q Hp Hq Hlex. cbv beta in Hlex.
  rewrite <- in_rev, in_stable_sort, <- in_rev in Hp, Hq.
  rewrite Forall_forall in Hkeys.
  exists (fst p), (fst q). repeat split; auto.
Qed.

End SortReverseFacts.

(** ** The query pipeline *)

Section SelectFacts.

Import TextSearch.
Variable A : Type.

Lemma select_length (l : list A) ids xs :
  select l ids = inr xs -> List.length xs = List.length ids.
Proof.
  revert xs. induction ids as [|i ids IH]; simpl; intros xs H.
  - now inversion H.
  - destruct (nth_error l i); [|discriminate].
    destruct (select l ids) as [e|ys]; [discriminate|].
    inversion H; subst. simpl. now rewrite (IH ys).
Qed.

(** Position [j] of the selection holds the element numbered [ids[j]]. *)
Lemma select_nth_error (l : list A) ids xs :
  select l ids = inr xs ->
  forall j i, nth_error ids j = Some i ->
  exists x, nth_error xs j = Some x /\ nth_error l i = Some x.
Proof.
  revert xs. induction ids as [|i0 ids IH]; simpl; intros xs H j i Hj.
  - destruct j; discriminate.
  - destruct (nth_error l i0) as [x0|] eqn:H0; [|discriminate].
    destruct (select l ids) as [e|ys]; [discriminate|].
    inversion H; subst. destruct j as [|j]; simpl in *.
    + inversion Hj; subst. eauto.
    + eapply IH; eauto.
Qed.

Lemma select_total (l : list A) ids :
  Forall (fun i => i < List.length l) ids -> exists xs, select l ids = inr xs.
Proof.
  induction 1 as [|i ids Hi _ [xs IH]]; simpl; [eauto|].
  destruct (nth_error l i) eqn:Hn.
  - rewrite IH. eauto.
  - apply nth_error_None in Hn. lia.
Qed.

Lemma select_seq (l : list A) n :
  forall a, a + n <= List.length l ->
  select l (seq a n) = inr (firstn n (skipn a l)).
Proof.
  induction n as [|n IH]; intros a Ha; simpl; [reflexivity|].
  destruct (@skipn_nth_error _ l a) as [x [Hn Hs]]; [lia|].
  rewrite Hn, IH, Hs by lia. reflexivity.
Qed.

(** Selecting every index in increasing order gives the list back. *)
Lemma select_all (l : list A) : select l (seq 0 (List.length l)) = inr l.
Proof.
  rewrite select_seq by lia. simpl. now rewrite firstn_all.
Qed.

End SelectFacts.

Section QueryFacts.

Import TextSearch PySort.
Variable E : TextSearch.env.

Lemma intersection_update_incl s other :
  set_order_ok E ->
  forall i, In i (intersection_update E s other) -> In i s.
Proof.
  intros Hok i Hi. unfold intersection_update in Hi.
  apply (Permutation_in _ (Hok _)) in Hi.
  apply filter_In in Hi. tauto.
Qed.

Lemma apply_filters_incl fs :
  set_order_ok E ->
  forall q es included q' included',
    apply_filters E fs q es included = (q', included') ->
    forall i, In i included' -> In i included.
Proof.
  intros Hok. induction fs as [|f fs IH]; simpl; intros q es inc q' inc' H i Hi.
  - inversion H; subst. exact Hi.
  - destruct (apply f q es) as [q1 by_filter].
    eapply intersection_update_incl; [exact Hok|].
    eapply IH; eauto.
Qed.

(** The included indices are indices of the entry list. *)
Lemma filter_stage_in_range raw m q idxs :
  set_order_ok E ->
  filter_stage E raw m = (q, idxs) ->
  Forall (fun i => i < List.length (entries m)) idxs.
Proof.
  intros Hok H. apply Forall_forall. intros i Hi.
  unfold filter_stage in H.
  apply (apply_filters_incl _ Hok _ _ _ H) in Hi.
  unfold set_of_range in Hi. apply in_seq in Hi. lia.
Qed.

Lemma filter_none (raw : string) (fs : list filter) :
  Forall (fun f => can_filter f raw = false) fs ->
  List.filter (fun f => can_filter f raw) fs = [].
Proof.
  induction 1 as [|f fs Hf _ IH]; simpl; [reflexivity|].
  now rewrite Hf.
Qed.

Lemma narrow_inr m idxs es embs :
  narrow m idxs = inr (es, embs) ->
  select (entries m) idxs = inr es /\
  select (corpus_embeddings m) idxs = inr embs.
Proof.
  unfold narrow. intros H.
  destruct (select (entries m) idxs) as [e|es']; [discriminate|].
  destruct (select (corpus_embeddings m) idxs) as [e|embs']; [discriminate|].
  now inversion H.
Qed.

Lemma cross_inputs_inr q es hits ps :
  cross_inputs q es hits = inr ps ->
  Forall (fun h => corpus_id h < List.length es) hits /\
  List.length ps = List.length hits.
Proof.
  revert ps. induction hits as [|h hits IH]; simpl; intros ps H.
  - inversion H. auto.
  - destruct (nth_error es (corpus_id h)) as [e|] eqn:Hn; [|discriminate].
    destruct (cross_inputs q es hits) as [err|ps']; [discriminate|].
    inversion H; subst. destruct (IH ps' eq_refl) as [Hf Hl].
    split; [|simpl; now rewrite Hl].
    constructor; [|exact Hf].
    apply nth_error_Some. congruence.
Qed.

Lemma cross_inputs_total q es hits :
  Forall (fun h => corpus_id h < List.length es) hits ->
  exists ps, cross_inputs q es hits = inr ps.
Proof.
  induction 1 as [|h hits Hh _ [ps IH]]; simpl; [eauto|].
  destruct (nth_error es (corpus_id h)) eqn:Hn.
  - rewrite IH. eauto.
  - apply nth_error_None in Hn. lia.
Qed.

(** Storing the cross-encoder scores leaves [corpus_id] and [score] of
    every hit as they were. *)
Lemma set_cross_scores_inr hits :
  forall cs hs, set_cross_scores hits cs = inr hs ->
  map corpus_id hs = map corpus_id hits /\ map score hs = map score hits.
Proof.
  induction hits as [|h hits IH]; intros [|c cs] hs H; simpl in H.
  - inversion H. auto.
  - discriminate.
  - inversion H. auto.
  - destruct (set_cross_scores hits cs) as [e|hs'] eqn:Hs; [discriminate|].
    inversion H; subst. destruct (IH _ _ Hs) as [Hc Hsc].
    simpl. now rewrite Hc, Hsc.
Qed.

Lemma set_cross_scores_total hits :
  forall cs, List.length cs = List.length hits ->
  exists hs, set_cross_scores hits cs = inr hs /\
             Forall (fun h => exists c, cross_score h = Some c) hs.
Proof.
  induction hits as [|h hits IH]; intros [|c cs] Hl; simpl in *;
    try discriminate.
  - eauto.
  - destruct (IH cs) as [hs [-> Hf]]; [lia|].
    eexists. split; [reflexivity|]. constructor; simpl; eauto.
Qed.

End QueryFacts.

Section QueryStages.

Import TextSearch PySort.
Variable E : TextSearch.env.

(** What a run of [search_and_rank] that returns went through. *)
Lemma search_and_rank_inr m q ents embs rank w hits ents' w' :
  search_and_rank E m q ents embs rank w = (inr (hits, ents'), w') ->
  exists raw_hits rest hits1 hits2 evs,
    semantic_search E (normalize_embeddings E (bi_encoder m [q])) embs (top_k m)
      = raw_hits :: rest /\
    (if rank
     then exists ps,
         cross_inputs q ents (map (fun h => Hit (fst h) (snd h) None) raw_hits)
           = inr ps /\
         set_cross_scores (map (fun h => Hit (fst h) (snd h) None) raw_hits)
                          (cross_encoder m ps) = inr hits1
     else hits1 = map (fun h => Hit (fst h) (snd h) None) raw_hits) /\
    sort_reverse score_key hits1 = inr hits2 /\
    (if rank then sort_reverse cross_score_key hits2 = inr hits
     else hits = hits2) /\
    ents' = ents /\ files w' = files w /\
    log w' = (log w ++ BiEncoded [q]
                :: Searched (normalize_embeddings E (bi_encoder m [q])) embs
                            (top_k m) :: evs)%list.
Proof.
  unfold search_and_rank, bind, emit, lift, ret. cbn [files log].
  destruct (semantic_search E _ embs (top_k m)) as [|raw_hits rest] eqn:Hs;
    [discriminate|].
  destruct rank.
  - destruct (cross_inputs q ents _) as [e|ps] eqn:Hc; [discriminate|].
    cbn [files log].
    destruct (set_cross_scores _ (cross_encoder m ps)) as [e|hits1] eqn:Hx;
      [discriminate|].
    destruct (sort_reverse score_key hits1) as [e|hits2] eqn:H1; [discriminate|].
    destruct (sort_reverse cross_score_key hits2) as [e|hits3] eqn:H2;
      [discriminate|].
    intros H. inversion H; subst.
    exists raw_hits, rest, hits1, hits2, [CrossEncoded ps].
    repeat split; eauto.
    cbn [log]. now rewrite <- !app_assoc.
  - destruct (sort_reverse score_key _) as [e|hits2] eqn:H1; [discriminate|].
    intros H. inversion H; subst.
    exists raw_hits, rest, (map (fun h => Hit (fst h) (snd h) None) raw_hits),
      hits, [].
    repeat split; eauto.
    cbn [log]. now rewrite <- !app_assoc.
Qed.

(** What a run of [query] that returns went through. *)
Lemma query_inr raw m rank w hits ents w' :
  query E raw m rank w = (inr (hits, ents), w') ->
  (hits = [] /\ ents = [] /\ w' = w) \/
  exists q idxs embs,
    filter_stage E raw m = (q, idxs) /\
    narrow m idxs = inr (ents, embs) /\
    search_and_rank E m q ents embs rank w = (inr (hits, ents), w').
Proof.
  unfold query.
  destruct (filter_stage E raw m) as [q idxs] eqn:Hf.
  destruct idxs as [|i idxs].
  - intros H. inversion H. auto.
  - unfold bind, lift.
    destruct (narrow m (i :: idxs)) as [e|[es embs]] eqn:Hn; [discriminate|].
    destruct es as [|e0 es].
    + intros H. inversion H. auto.
    + intros H. right. exists q, (i :: idxs), embs.
      destruct (search_and_rank_inr _ _ _ _ _ _ H) as
        (_ & _ & _ & _ & _ & _ & _ & _ & _ & He & _).
      subst ents. auto.
Qed.

Lemma strongly_sorted_any {A} (l : list A) :
  StronglySorted (fun _ _ => True) l.
Proof.
  induction l; constructor; [assumption|].
  apply Forall_forall. auto.
Qed.

(** The order of the hits after the sorts of [search_and_rank]. *)
Lemma search_and_rank_sorted m q ents embs rank w hits ents' w' :
  search_and_rank E m q ents embs rank w = (inr (hits, ents'), w') ->
  if rank then StronglySorted by_cross_then_score hits
  else StronglySorted by_score hits.
Proof.
  intros H.
  destruct (search_and_rank_inr _ _ _ _ _ _ H) as
    (raw_hits & rest & hits1 & hits2 & evs & _ & _ & Hs1 & Hs2 & _).
  assert (H2 : StronglySorted by_score hits2).
  { pose proof (@sort_reverse_sorted _ _ _ _ _ Hs1 (strongly_sorted_any hits1))
      as Hd.
    eapply strongly_sorted_weaken; [|exact Hd].
    intros a b _ _ (ka & kb & Ha & Hb & Hord).
    unfold score_key in *. inversion Ha; inversion Hb; subst.
    unfold by_score. destruct Hord as [Hlt|[Heq _]].
    - now apply Qlt_le_weak.
    - rewrite Heq. apply Qle_refl. }
  destruct rank.
  - apply (@sort_reverse_sorted _ _ _ _ _ Hs2) in H2.
    eapply strongly_sorted_weaken; [|exact H2].
    intros a b _ _ (ka & kb & Ha & Hb & Hord).
    unfold cross_score_key in *.
    destruct (cross_score a) as [ca|] eqn:Hca; [|discriminate].
    destruct (cross_score b) as [cb|] eqn:Hcb; [|discriminate].
    inversion Ha; inversion Hb; subst.
    exists ka, kb. auto.
  - now subst hits.
Qed.

End QueryStages.

Section QueryRuns.

Import TextSearch PySort.
Variable E : TextSearch.env.

(** Once the filters leave entries, [query] is [search_and_rank] on them. *)
Lemma query_after_narrow raw m rank w q idxs es embs :
  filter_stage E raw m = (q, idxs) ->
  narrow m idxs = inr (es, embs) ->
  es <> [] ->
  query E raw m rank w = search_and_rank E m q es embs rank w.
Proof.
  intros Hf Hn Hes. unfold query. rewrite Hf.
  destruct idxs as [|i idxs].
  - cbn in Hn. inversion Hn. congruence.
  - unfold bind at 1. unfold lift. rewrite Hn.
    destruct es; [congruence | reflexivity].
Qed.

Lemma raw_hits_in_range m q embs raw_hits rest :
  search_ok E ->
  semantic_search E q embs (top_k m) = raw_hits :: rest ->
  Forall (fun h => corpus_id h < List.length embs)
         (map (fun h => Hit (fst h) (snd h) None) raw_hits).
Proof.
  intros Hok Hs. destruct (Hok q embs (top_k m)) as [_ Hall].
  rewrite Hs in Hall. inversion Hall as [|? ? Hh _]; subst.
  apply Forall_forall. intros h Hin.
  apply in_map_iff in Hin. destruct Hin as [rh [<- Hrh]].
  rewrite Forall_forall in Hh. simpl. auto.
Qed.

(** With libraries that keep their promises, [search_and_rank] returns. *)
Lemma search_and_rank_returns m q ents embs rank w :
  search_ok E -> encoders_ok E m ->
  List.length ents = List.length embs ->
  exists hits w',
    search_and_rank E m q ents embs rank w = (inr (hits, ents), w').
Proof.
  intros Hok (Hnorm & Hbi & Hcross) Hlen.
  unfold search_and_rank, bind, emit, lift, ret. cbn [files log].
  destruct (semantic_search E (normalize_embeddings E (bi_encoder m [q]))
                            embs (top_k m)) as [|raw_hits rest] eqn:Hs.
  { destruct (Hok (normalize_embeddings E (bi_encoder m [q])) embs (top_k m))
      as [Hl _].
    rewrite Hs, Hnorm, Hbi in Hl. discriminate. }
  assert (Hrange : Forall (fun h => corpus_id h < List.length embs)
                           (map (fun h => Hit (fst h) (snd h) None) raw_hits))
    by (eapply raw_hits_in_range; eauto).
  rewrite <- Hlen in Hrange.
  set (hits0 := map (fun h => Hit (fst h) (snd h) None) raw_hits) in *.
  assert (Hsort1 : forall l, exists l', sort_reverse score_key l = inr l').
  { intros l. apply sort_reverse_total. intros x _. unfold score_key. eauto. }
  destruct rank.
  - destruct (@cross_inputs_total q _ _ Hrange) as [ps Hps]. rewrite Hps.
    cbn [files log].
    destruct (@cross_inputs_inr _ _ _ _ Hps) as [_ Hpl].
    destruct (@set_cross_scores_total hits0 (cross_encoder m ps))
      as [hits1 [Hset Hall]]; [now rewrite Hcross|].
    rewrite Hset.
    destruct (Hsort1 hits1) as [hits2 H1]. rewrite H1.
    destruct (@sort_reverse_total _ cross_score_key hits2) as [hits3 H2].
    { intros x Hx. apply (@sort_reverse_in _ _ _ _ H1) in Hx.
      rewrite Forall_forall in Hall. destruct (Hall x Hx) as [c Hc].
      unfold cross_score_key. rewrite Hc. eauto. }
    rewrite H2. eauto.
  - destruct (Hsort1 hits0) as [hits2 H1]. rewrite H1. eauto.
Qed.

(** With libraries that keep their promises and an embedding row for
    every entry, [query] returns, whatever the filters do. *)
Lemma query_returns raw m rank w :
  set_order_ok E -> search_ok E -> encoders_ok E m ->
  List.length (entries m) <= List.length (corpus_embeddings m) ->
  exists hits ents w', query E raw m rank w = (inr (hits, ents), w').
Proof.
  intros Hset Hok Henc Hlen.
  destruct (filter_stage E raw m) as [q idxs] eqn:Hf.
  pose proof (@filter_stage_in_range E raw m q idxs Hset Hf) as Hrange.
  destruct (@select_total _ (entries m) idxs Hrange) as [es Hes].
  destruct (@select_total _ (corpus_embeddings m) idxs) as [embs Hembs].
  { eapply Forall_impl; [|exact Hrange]. intros i Hi. simpl in Hi. lia. }
  assert (Hn : narrow m idxs = inr (es, embs))
    by (unfold narrow; now rewrite Hes, Hembs).
  destruct es as [|e es].
  - exists [], [], w. unfold query. rewrite Hf.
    destruct idxs as [|i idxs]; [reflexivity|].
    unfold bind, lift. now rewrite Hn.
  - rewrite (@query_after_narrow raw m rank w q idxs (e :: es) embs Hf Hn)
      by discriminate.
    destruct (@search_and_rank_returns m q (e :: es) embs rank w Hok Henc)
      as (hits & w' & Hrun).
    { rewrite (@select_length _ _ _ _ Hes), (@select_length _ _ _ _ Hembs).
      reflexivity. }
    eauto.
Qed.

End QueryRuns.

(** ** Claims about [query] *)

Section QueryClaims.

Import TextSearch PySort.
Variable E : TextSearch.env.

(** C1: the hits [query] returns are ordered by falling cross-encoder
    score when [rank_results] is true, hits with equal cross-encoder
    scores by falling bi-encoder score; and by falling bi-encoder score
    when [rank_results] is false. *)
Theorem query_hits_ordered raw m rank w hits ents w' :
  query E raw m rank w = (inr (hits, ents), w') ->
  if rank then StronglySorted by_cross_then_score hits
  else StronglySorted by_score hits.
Proof.
  intros H. destruct (query_inr _ _ _ _ _ H) as [(-> & _ & _)|Hrun].
  - destruct rank; constructor.
  - destruct Hrun as (q & idxs & embs & _ & _ & Hs).
    exact (search_and_rank_sorted _ _ _ _ _ _ _ Hs).
Qed.

(** C4: on a model with no entries [query] returns no hits and no
    entries, and the world is as before: nothing was logged, so neither
    encoder nor the search was called. *)
Theorem query_empty_corpus raw m rank w :
  set_order_ok E ->
  entries m = [] ->
  query E raw m rank w = (inr ([], []), w).
Proof.
  intros Hok Hm. unfold query.
  destruct (filter_stage E raw m) as [q idxs] eqn:Hf.
  apply (filter_stage_in_range _ _ Hok) in Hf. rewrite Hm in Hf.
  destruct idxs as [|i idxs]; [reflexivity|].
  inversion Hf; subst. simpl in *. lia.
Qed.

(** C3: when the entry list is not empty and no filter applies to the
    query, the included indices are [0 .. len-1] in this order, the
    entries [query] returns are the whole entry list in its order, and
    with libraries that keep their promises and an embedding row for every
    entry [query] does return. *)
Theorem query_without_filters raw m rank w :
  entries m <> [] ->
  Forall (fun f => can_filter f raw = false) (filters m) ->
  filter_stage E raw m = (raw, seq 0 (List.length (entries m))) /\
  (forall hits ents w',
      query E raw m rank w = (inr (hits, ents), w') -> ents = entries m) /\
  (search_ok E -> encoders_ok E m ->
   List.length (entries m) <= List.length (corpus_embeddings m) ->
   exists hits w', query E raw m rank w = (inr (hits, entries m), w')).
Proof.
  intros Hne Hnone.
  assert (Hf : filter_stage E raw m = (raw, seq 0 (List.length (entries m)))).
  { unfold filter_stage. now rewrite filter_none. }
  assert (Hsel : forall embs,
             select (corpus_embeddings m) (seq 0 (List.length (entries m)))
               = inr embs ->
             narrow m (seq 0 (List.length (entries m))) = inr (entries m, embs)).
  { intros embs He. unfold narrow. now rewrite select_all, He. }
  split; [exact Hf|split].
  - intros hits ents w' H.
    destruct (select (corpus_embeddings m) (seq 0 (List.length (entries m))))
      as [e|embs] eqn:He.
    + assert (Hn : narrow m (seq 0 (List.length (entries m))) = inl e)
        by (unfold narrow; now rewrite select_all, He).
      unfold query in H. rewrite Hf in H.
      destruct (seq 0 (List.length (entries m))) as [|i idxs] eqn:Hseq.
      * apply (f_equal (@List.length nat)) in Hseq.
        rewrite length_seq in Hseq. simpl in Hseq.
        apply length_zero_iff_nil in Hseq. contradiction.
      * unfold bind, lift in H. rewrite Hn in H. discriminate.
    + assert (Hn : narrow m (seq 0 (List.length (entries m)))
                   = inr (entries m, embs))
        by (unfold narrow; now rewrite select_all, He).
      rewrite (@query_after_narrow E raw m rank w _ _ _ _ Hf Hn Hne) in H.
      now destruct (@search_and_rank_inr E _ _ _ _ _ _ _ _ _ H) as
        (_ & _ & _ & _ & _ & _ & _ & _ & _ & He' & _).
  - intros Hok Henc Hlen.
    pose proof (@select_seq _ (corpus_embeddings m) (List.length (entries m)) 0)
      as He.
    specialize (He ltac:(lia)).
    rewrite (@query_after_narrow E raw m rank w _ _ _ _ Hf (Hsel _ He) Hne).
    apply search_and_rank_returns; auto.
    cbn [skipn]. rewrite length_firstn. lia.
Qed.

(** C9: with a search library whose hits name rows of the corpus it was
    given, every hit [query] returns indexes the returned entries, and the
    returned entry and the embedding row searched at that position are the
    entry and the row of the model at one and the same included index. *)
Theorem query_hits_aligned raw m rank w hits ents w' :
  search_ok E ->
  query E raw m rank w = (inr (hits, ents), w') ->
  hits <> [] ->
  exists q idxs embs question,
    filter_stage E raw m = (q, idxs) /\
    select (entries m) idxs = inr ents /\
    select (corpus_embeddings m) idxs = inr embs /\
    In (Searched question embs (top_k m)) (log w') /\
    Forall (fun h =>
              corpus_id h < List.length ents /\
              exists i e v,
                nth_error idxs (corpus_id h) = Some i /\
                nth_error ents (corpus_id h) = Some e /\
                nth_error (entries m) i = Some e /\
                nth_error embs (corpus_id h) = Some v /\
                nth_error (corpus_embeddings m) i = Some v) hits.
Proof.
  intros Hok H Hne.
  destruct (query_inr _ _ _ _ _ H) as [(-> & _)|Hrun]; [congruence|].
  destruct Hrun as (q & idxs & embs & Hf & Hn & Hs).
  destruct (narrow_inr _ _ Hn) as [Hse Hsv].
  destruct (@search_and_rank_inr E _ _ _ _ _ _ _ _ _ Hs) as
    (raw_hits & rest & hits1 & hits2 & evs & Hsearch & Hcross & Hs1 & Hs2
     & _ & _ & Hlog).
  exists q, idxs, embs, (normalize_embeddings E (bi_encoder m [q])).
  repeat (split; [assumption|]).
  split.
  { rewrite Hlog. apply in_or_app. right. simpl. auto. }
  pose proof (@select_length _ _ _ _ Hse) as Hle.
  pose proof (@select_length _ _ _ _ Hsv) as Hlv.
  assert (Hids : forall h, In h hits -> corpus_id h < List.length embs).
  { intros h Hh.
    assert (Hh2 : In h hits2).
    { destruct rank; [|now subst hits].
      now apply (@sort_reverse_in _ _ _ _ Hs2). }
    apply (@sort_reverse_in _ _ _ _ Hs1) in Hh2.
    assert (Hraw : Forall (fun h => corpus_id h < List.length embs)
                          (map (fun h => Hit (fst h) (snd h) None) raw_hits))
      by (eapply raw_hits_in_range; eauto).
    assert (Hmap : map corpus_id hits1 =
                   map corpus_id (map (fun h => Hit (fst h) (snd h) None) raw_hits)).
    { destruct rank; [|now subst hits1].
      destruct Hcross as (ps & _ & Hset).
      now destruct (@set_cross_scores_inr _ _ _ Hset). }
    apply (in_map corpus_id) in Hh2. rewrite Hmap in Hh2.
    apply in_map_iff in Hh2. destruct Hh2 as [h0 [<- Hh0]].
    rewrite Forall_forall in Hraw. auto. }
  apply Forall_forall. intros h Hh. specialize (Hids h Hh).
  split; [lia|].
  destruct (nth_error idxs (corpus_id h)) as [i|] eqn:Hi.
  - destruct (@select_nth_error _ _ _ _ Hse _ _ Hi) as [e [He1 He2]].
    destruct (@select_nth_error _ _ _ _ Hsv _ _ Hi) as [v [Hv1 Hv2]].
    exists i, e, v. auto.
  - apply nth_error_None in Hi. lia.
Qed.

End QueryClaims.

(** ** The sample libraries keep the promises *)

Section SampleFacts.

Import TextSearch.

Lemma sample_set_order_ok : set_order_ok Sample.text_env.
Proof. intros l. symmetry. apply Permutation_rev. Qed.

Lemma sample_search_ok : search_ok Sample.text_env.
Proof.
  intros q c k. cbn [semantic_search Sample.text_env].
  unfold Sample.first_rows_search. split; [apply length_map|].
  apply Forall_forall. intros hs Hhs.
  apply in_map_iff in Hhs. destruct Hhs as [qv [<- _]].
  apply Forall_forall. intros [i s] Hin.
  assert (Hin' : In (i, s) (combine (seq 0 (List.length c))
                                    (map (Sample.dot qv) c))).
  { rewrite <- (firstn_skipn k). apply in_or_app. now left. }
  apply in_combine_l, in_seq in Hin'. simpl. lia.
Qed.

Lemma sample_encoders_ok m :
  bi_encoder m = Sample.unit_encoder ->
  cross_encoder m = Sample.length_scorer ->
  encoders_ok Sample.text_env m.
Proof.
  intros Hb Hc. repeat split; intros; rewrite ?Hb, ?Hc;
    unfold Sample.unit_encoder, Sample.length_scorer;
    try reflexivity; apply length_map.
Qed.

End SampleFacts.

Section QueryWitnesses.

Import TextSearch.

Lemma query_hits_ordered_witness :
  StronglySorted by_cross_then_score
    [Hit 1 3%Q (Some 6%Q); Hit 2 1%Q (Some 4%Q); Hit 0 1%Q (Some 2%Q)].
Proof.
  apply (@query_hits_ordered Sample.text_env "hello" Sample.text_model true
           Sample.quiet_world _ Sample.corpus
           (World (fun _ => None)
              [BiEncoded ["hello"];
               Searched [[1%Q; 0%Q]] [[1%Q; 0%Q]; [3%Q; 1%Q]; [1%Q; 1%Q]] 3;
               CrossEncoded [("hello", "#A"); ("hello", "## Bee");
                             ("hello", "#Sea")]])).
  reflexivity.
Defined.

Lemma query_empty_corpus_witness :
  query Sample.text_env "+hello" Sample.empty_model true Sample.quiet_world
    = (inr ([], []), Sample.quiet_world).
Proof.
  apply (@query_empty_corpus Sample.text_env "+hello" Sample.empty_model true
           Sample.quiet_world).
  - exact sample_set_order_ok.
  - reflexivity.
Defined.

Lemma query_without_filters_witness :
  filter_stage Sample.text_env "hello" Sample.text_model = ("hello", [0; 1; 2]) /\
  (forall hits ents w',
      query Sample.text_env "hello" Sample.text_model false Sample.quiet_world
        = (inr (hits, ents), w') -> ents = Sample.corpus) /\
  exists hits w',
    query Sample.text_env "hello" Sample.text_model false Sample.quiet_world
      = (inr (hits, Sample.corpus), w').
Proof.
  destruct (@query_without_filters Sample.text_env "hello" Sample.text_model
              false Sample.quiet_world) as (H1 & H2 & H3).
  - discriminate.
  - repeat constructor.
  - split; [exact H1|]. split; [exact H2|].
    apply H3.
    + exact sample_search_ok.
    + now apply sample_encoders_ok.
    + simpl. lia.
Defined.

Lemma query_hits_aligned_witness :
  exists q idxs embs question,
    filter_stage Sample.text_env "+hello" Sample.text_model = (q, idxs) /\
    select Sample.corpus idxs
      = inr [Entry "#Sea" "#Sea" "/notes/b.md"; Entry "#A" "#A" "/notes/a.md"] /\
    select (corpus_embeddings Sample.text_model) idxs = inr embs /\
    In (Searched question embs 3)
       [BiEncoded ["hello"];
        Searched [[1%Q; 0%Q]] [[1%Q; 1%Q]; [1%Q; 0%Q]] 3;
        CrossEncoded [("hello", "#Sea"); ("hello", "#A")]] /\
    Forall (fun h =>
              corpus_id h < 2 /\
              exists i e v,
                nth_error idxs (corpus_id h) = Some i /\
                nth_error [Entry "#Sea" "#Sea" "/notes/b.md";
                           Entry "#A" "#A" "/notes/a.md"] (corpus_id h) = Some e /\
                nth_error Sample.corpus i = Some e /\
                nth_error embs (corpus_id h) = Some v /\
                nth_error (corpus_embeddings Sample.text_model) i = Some v)
           [Hit 0 1%Q (Some 4%Q); Hit 1 1%Q (Some 2%Q)].
Proof.
  apply (@query_hits_aligned Sample.text_env "+hello" Sample.text_model true
           Sample.quiet_world
           [Hit 0 1%Q (Some 4%Q); Hit 1 1%Q (Some 2%Q)]
           [Entry "#Sea" "#Sea" "/notes/b.md"; Entry "#A" "#A" "/notes/a.md"]
           (World (fun _ => None)
              [BiEncoded ["hello"];
               Searched [[1%Q; 0%Q]] [[1%Q; 1%Q]; [1%Q; 0%Q]] 3;
               CrossEncoded [("hello", "#Sea"); ("hello", "#A")]])).
  - exact sample_search_ok.
  - reflexivity.
  - discriminate.
Defined.

End QueryWitnesses.

(** ** The embedding cache *)

Section EmbeddingCache.

Import TextSearch.
Variable E : TextSearch.env.

Lemma update_same fs path data : update fs path data path = Some data.
Proof. unfold update. now rewrite String.eqb_refl. Qed.

(** C5: for an embeddings file named by its absolute path.  When the file
    exists and [regenerate] is false, [compute_embeddings] returns the
    tensor the file holds, reads that file only and does not call the
    bi-encoder.  When the file does not exist or [regenerate] is true, it
    encodes the [compiled] texts of all entries, normalizes the result,
    writes it to the file and returns it; provided the tensor can be read
    back from what was saved, calling again without [regenerate] then
    returns the same tensor from the file. *)
Theorem compute_embeddings_cache
    (entries : list entry) (bi_encoder : list string -> tensor)
    (embeddings_file : string) (w : world) :
  get_absolute_path E embeddings_file = embeddings_file ->
  let fresh := normalize_embeddings E (bi_encoder (map compiled entries)) in
  torch_load E (torch_save E fresh) = Some fresh ->
  (forall content t,
      files w embeddings_file = Some content ->
      torch_load E content = Some t ->
      compute_embeddings E entries bi_encoder embeddings_file false w =
        (inr t, World (files w) (log w ++ [FileRead embeddings_file])%list)) /\
  (forall regenerate,
      regenerate = true \/ files w embeddings_file = None ->
      let w1 := World (update (files w) embeddings_file (torch_save E fresh))
                      (log w ++ [BiEncoded (map compiled entries);
                                 FileWritten embeddings_file (torch_save E fresh)])%list in
      compute_embeddings E entries bi_encoder embeddings_file regenerate w =
        (inr fresh, w1) /\
      compute_embeddings E entries bi_encoder embeddings_file false w1 =
        (inr fresh, World (files w1) (log w1 ++ [FileRead embeddings_file])%list)).
Proof.
  intros Hpath fresh Hround.
  assert (Hhit : forall w0 content t,
             files w0 embeddings_file = Some content ->
             torch_load E content = Some t ->
             compute_embeddings E entries bi_encoder embeddings_file false w0 =
               (inr t, World (files w0) (log w0 ++ [FileRead embeddings_file])%list)).
  { intros w0 content t Hfile Hload.
    unfold compute_embeddings, bind, exists_file, torch_load_file, read_file.
    rewrite Hpath, Hfile. cbn [andb negb].
    unfold bind. rewrite Hfile, Hload. reflexivity. }
  split; [apply Hhit|].
  intros regenerate Hmiss w1. split.
  - unfold compute_embeddings, bind, exists_file.
    assert (Hcond : match files w embeddings_file with
                    | Some _ => true
                    | None => false
                    end && negb regenerate = false).
    { destruct Hmiss as [-> | ->]; [apply andb_false_r | reflexivity]. }
    rewrite Hcond. unfold emit, write_file, ret. cbn [files log].
    subst w1 fresh. now rewrite <- app_assoc.
  - apply (Hhit w1 (torch_save E fresh) fresh); [apply update_same | exact Hround].
Qed.

End EmbeddingCache.

Lemma compute_embeddings_cache_witness :
  TextSearch.compute_embeddings Sample.text_env Sample.corpus
      Sample.unit_encoder "/emb.pt" false Sample.cached_world =
    (inr [[1%Q; 0%Q]; [1%Q; 0%Q]],
     World (files Sample.cached_world) [FileRead "/emb.pt"]) /\
  let fresh := [[1%Q; 0%Q]; [1%Q; 0%Q]; [1%Q; 0%Q]] in
  let w1 := World (update (files Sample.cached_world) "/emb.pt" "rrr")
                  [BiEncoded ["#A"; "## Bee"; "#Sea"];
                   FileWritten "/emb.pt" "rrr"] in
  TextSearch.compute_embeddings Sample.text_env Sample.corpus
      Sample.unit_encoder "/emb.pt" true Sample.cached_world = (inr fresh, w1) /\
  TextSearch.compute_embeddings Sample.text_env Sample.corpus
      Sample.unit_encoder "/emb.pt" false w1 =
    (inr fresh, World (files w1) (log w1 ++ [FileRead "/emb.pt"])%list).
Proof.
  destruct (@compute_embeddings_cache Sample.text_env Sample.corpus
              Sample.unit_encoder "/emb.pt" Sample.cached_world)
    as [Hhit Hmiss].
  - reflexivity.
  - reflexivity.
  - split.
    + apply (Hhit "rr"); reflexivity.
    + apply (Hmiss true). left. reflexivity.
Defined.

(** * Further properties of the converter *)

Section ConverterInputs.

Import Markdown.
Variable E : Markdown.env.

(** X1: when iterating a set visits each element once,
    [get_markdown_files] never raises and returns, without duplicates,
    exactly the absolute paths of the files given and the paths the filter
    pattern, made absolute, matches; it looks files up only for a
    non-empty filter and reads and writes nothing. *)
Theorem get_markdown_files_result
    (markdown_files : option (list string)) (markdown_file_filter : option string)
    (w : world) :
  (forall l, Permutation (set_order E l) l) ->
  exists result,
    get_markdown_files E markdown_files markdown_file_filter w =
      (inr result,
       World (files w)
             (log w ++ match markdown_file_filter with
                       | Some (String c p) =>
                           [Globbed (get_absolute_path E (String c p))]
                       | _ => []
                       end)%list) /\
    NoDup result /\
    forall p,
      In p result <->
      (exists fs f, markdown_files = Some fs /\ In f fs /\
                    p = get_absolute_path E f) \/
      (exists pattern, markdown_file_filter = Some pattern /\
                       pattern <> EmptyString /\
                       In p (glob_glob E (get_absolute_path E pattern))).
Proof.
  intros Hperm.
  set (absolute := match markdown_files with
                   | Some (f :: fs) => map (get_absolute_path E) (f :: fs)
                   | _ => []
                   end).
  set (filtered := match markdown_file_filter with
                   | Some (String c p) =>
                       glob_glob E (get_absolute_path E (String c p))
                   | _ => []
                   end).
  exists (py_set E (absolute ++ filtered)). split; [|split].
  - unfold get_markdown_files, bind, emit, ret. fold absolute.
    destruct markdown_file_filter as [[|c p]|]; cbn [files log];
      rewrite ?app_nil_r; subst filtered; try reflexivity; now destruct w.
  - unfold py_set. eapply Permutation_NoDup; [symmetry; apply Hperm|].
    apply NoDup_nodup.
  - intros p. unfold py_set.
    transitivity (In p (absolute ++ filtered)%list).
    { split; intros H.
      - apply (Permutation_in _ (Hperm _)) in H. now apply nodup_In in H.
      - apply (Permutation_in _ (Permutation_sym (Hperm _))).
        now apply nodup_In. }
    rewrite in_app_iff. subst absolute filtered.
    match goal with |- ?a \/ ?b <-> ?c \/ ?d =>
      cut ((a <-> c) /\ (b <-> d)); [tauto | split]
    end.
    + destruct markdown_files as [[|f fs]|].
      * split; [intros [] | intros (fs & f & Hs & Hin & _)].
        inversion Hs; subst. destruct Hin.
      * rewrite in_map_iff. split.
        -- intros (f0 & <- & Hin). exists (f :: fs), f0. auto.
        -- intros (fs0 & f0 & Hs & Hin & ->). inversion Hs; subst. eauto.
      * split; [intros [] | intros (fs & f & Hs & _)]. discriminate.
    + destruct markdown_file_filter as [[|c pat]|].
      * split; [intros [] | intros (pat & Hs & Hne & _)].
        inversion Hs; subst. congruence.
      * split.
        -- intros Hin. exists (String c pat). repeat split; [discriminate | exact Hin].
        -- intros (pat0 & Hs & _ & Hin). inversion Hs; subst. exact Hin.
      * split; [intros [] | intros (pat & Hs & _)]. discriminate.
Qed.

(** The extraction loop stops at the first file that cannot be read. *)
Lemma extract_loop_missing before missing rest :
  forall w entries entry_to_file_map,
    Forall (fun p => files w p <> None) before ->
    files w missing = None ->
    extract_loop E (before ++ missing :: rest) entries entry_to_file_map w =
    (inl (FileNotFoundError missing),
     World (files w) (log w ++ map FileRead before)%list).
Proof.
  induction before as [|p before IH]; intros w entries mp Hall Hmiss.
  - cbn [app extract_loop map]. unfold bind, read_file. rewrite Hmiss.
    rewrite app_nil_r. now destruct w.
  - inversion Hall as [|? ? Hp Hrest]; subst.
    cbn [app extract_loop]. unfold bind, read_file.
    destruct (files w p) as [content|] eqn:Hc; [|congruence].
    rewrite IH by assumption.
    cbn [files log map]. now rewrite <- app_assoc.
Qed.

(** X2: [extract_markdown_entries] raises [FileNotFoundError] for the
    first file that cannot be read; the files before it have been read,
    the ones after it are not touched, and no entry is returned. *)
Theorem extract_missing_file (before : list string) (missing : string)
    (rest : list string) (w : world) :
  Forall (fun p => files w p <> None) before ->
  files w missing = None ->
  extract_markdown_entries E (before ++ missing :: rest) w =
    (inl (FileNotFoundError missing),
     World (files w) (log w ++ map FileRead before)%list).
Proof. intros. now apply extract_loop_missing. Qed.

Lemma convert_loop_short entry_to_file_map :
  forall entries entry_id jsonl,
    entry_id <= List.length entry_to_file_map ->
    List.length entry_to_file_map < entry_id + List.length entries ->
    convert_loop entry_id entries entry_to_file_map jsonl = inl IndexError.
Proof.
  induction entries as [|entry rest IH]; intros entry_id jsonl Hle Hlt;
    simpl in Hlt; [lia|].
  cbn [convert_loop].
  destruct (nth_error entry_to_file_map entry_id) as [file|] eqn:Hn;
    [|reflexivity].
  apply IH; [|lia].
  assert (entry_id < List.length entry_to_file_map)
    by (apply nth_error_Some; congruence).
  lia.
Qed.

(** X3: with fewer files than entries,
    [convert_markdown_entries_to_jsonl] raises [IndexError] and returns
    no text, not even for the entries that have a file. *)
Theorem convert_short_map (entries entry_to_file_map : list string) :
  List.length entry_to_file_map < List.length entries ->
  convert_markdown_entries_to_jsonl entries entry_to_file_map = inl IndexError.
Proof.
  intros H. unfold convert_markdown_entries_to_jsonl.
  apply convert_loop_short; simpl; lia.
Qed.

End ConverterInputs.

Section EntryText.

Import Markdown.

Lemma join_cons_char sep c piece pieces :
  join sep (String c piece :: pieces) = String c (join sep (piece :: pieces)).
Proof. destruct pieces; reflexivity. Qed.

Lemma join_cons_nonempty sep piece pieces :
  pieces <> [] -> join sep (piece :: pieces) = piece ++ sep ++ join sep pieces.
Proof. destruct pieces; [congruence | reflexivity]. Qed.

(** Putting the ['#'] back between the pieces gives the text that was
    split. *)
Lemma join_re_split_heading s :
  forall bol, join "#" (re_split_heading bol s) = s.
Proof.
  induction s as [|c s IH]; intros bol; [reflexivity|].
  cbn [re_split_heading].
  destruct (bol && Ascii.eqb c HASH) eqn:Hm.
  - apply andb_true_iff in Hm. destruct Hm as [_ Hc].
    apply Ascii.eqb_eq in Hc. subst c.
    rewrite join_cons_nonempty by apply re_split_heading_nonempty.
    now rewrite IH.
  - specialize (IH (Ascii.eqb c LF)).
    pose proof (re_split_heading_nonempty s (Ascii.eqb c LF)) as Hne.
    destruct (re_split_heading (Ascii.eqb c LF) s) as [|piece pieces];
      [congruence|].
    now rewrite join_cons_char, IH.
Qed.

Lemma occurs_in_refl s : occurs_in s s.
Proof. exists EmptyString, EmptyString. simpl. now rewrite append_empty_r. Qed.

Lemma occurs_in_trans t p s : occurs_in t p -> occurs_in p s -> occurs_in t s.
Proof.
  intros (a & b & ->) (a' & b' & ->).
  exists (a' ++ a), (b ++ b'). now rewrite !append_assoc.
Qed.

Lemma in_join_occurs sep parts p : In p parts -> occurs_in p (join sep parts).
Proof.
  induction parts as [|q parts IH]; intros Hin; [destruct Hin|].
  destruct parts as [|r parts].
  - destruct Hin as [->|[]]. apply occurs_in_refl.
  - rewrite join_cons_nonempty by discriminate.
    destruct Hin as [->|Hin].
    + exists EmptyString, (sep ++ join sep (r :: parts)). reflexivity.
    + destruct (IH Hin) as (a & b & Hj).
      exists (q ++ sep ++ a), b. rewrite Hj. now rewrite !append_assoc.
Qed.

Lemma lstrip_occurs chars s : occurs_in (lstrip chars s) s.
Proof.
  induction s as [|c s IH]; [apply occurs_in_refl|].
  cbn [lstrip]. destruct (mem c chars); [|apply occurs_in_refl].
  destruct IH as (a & b & Hs).
  exists (String c a), b. simpl. now rewrite <- Hs.
Qed.

Lemma rstrip_prefix chars s : exists r, s = rstrip chars s ++ r.
Proof.
  induction s as [|c s [r IH]]; [now exists EmptyString|].
  cbn [rstrip].
  destruct (is_empty (rstrip chars s) && mem c chars).
  - now exists (String c s).
  - exists r. simpl. now rewrite <- IH.
Qed.

Lemma rstrip_occurs chars s : occurs_in (rstrip chars s) s.
Proof.
  destruct (rstrip_prefix chars s) as [r Hr].
  exists EmptyString, r. exact Hr.
Qed.

Lemma first_in_lstrip chars s : first_in chars (lstrip chars s) = false.
Proof.
  induction s as [|c s IH]; [reflexivity|].
  cbn [lstrip]. destruct (mem c chars) eqn:Hc; [exact IH|].
  simpl. exact Hc.
Qed.

Lemma first_in_rstrip chars s :
  first_in chars s = false -> first_in chars (rstrip chars s) = false.
Proof.
  destruct s as [|c s]; [reflexivity|]. intros H.
  cbn [rstrip]. destruct (is_empty (rstrip chars s) && mem c chars);
    [reflexivity | exact H].
Qed.

Lemma last_in_rstrip chars s : last_in chars (rstrip chars s) = false.
Proof.
  induction s as [|c s IH]; [reflexivity|].
  cbn [rstrip].
  destruct (rstrip chars s) as [|d r] eqn:Hr; cbn [is_empty andb].
  - destruct (mem c chars) eqn:Hc; [reflexivity | simpl; exact Hc].
  - exact IH.
Qed.

(** X4: every entry of a file is ['#'] followed by a contiguous part of
    the file's content that neither begins nor ends with one of the
    characters of [empty_escape_sequences]. *)
Theorem entries_are_stripped_parts (E : env) (content : string) :
  Forall (fun e =>
            exists t,
              e = String HASH t /\
              first_in (empty_escape_sequences E) t = false /\
              last_in (empty_escape_sequences E) t = false /\
              occurs_in t content)
         (markdown_entries_per_file E content).
Proof.
  unfold markdown_entries_per_file.
  apply Forall_forall. intros e He.
  apply in_map_iff in He. destruct He as (piece & <- & Hin).
  exists (strip (empty_escape_sequences E) piece).
  split; [reflexivity|]. unfold strip. split; [|split].
  - apply first_in_rstrip, first_in_lstrip.
  - apply last_in_rstrip.
  - eapply occurs_in_trans; [apply rstrip_occurs|].
    eapply occurs_in_trans; [apply lstrip_occurs|].
    rewrite <- (join_re_split_heading content true).
    now apply in_join_occurs.
Qed.

End EntryText.

Section ConverterRuns.

Import Markdown.
Variable E : Markdown.env.

(** X5: when the input is accepted, every file can be read and the
    output suffix is [.jsonl] or [.gz], [markdown_to_jsonl] reads the files
    in turn, then writes the output file once, with the JSON Lines text of
    all records ([.jsonl]) or its gzip compression ([.gz]), and returns the
    entries. *)
Theorem markdown_to_jsonl_writes_output
    (markdown_files : option (list string)) (markdown_file_filter : option string)
    (output_file : string) (w : world) (paths : list string) (w1 : world) :
  is_none_or_empty (@List.length string) markdown_files
    && is_none_or_empty String.length markdown_file_filter = false ->
  get_markdown_files E markdown_files markdown_file_filter w = (inr paths, w1) ->
  Forall (fun p => files w1 p <> None) paths ->
  suffix E output_file = ".gz" \/ suffix E output_file = ".jsonl" ->
  let jsonl :=
    jsonl_of_records
      (flat_map (fun p => records_of_file E p (content_of w1 p)) paths) in
  let data := if String.eqb (suffix E output_file) ".gz"
              then gzip_compress E jsonl else jsonl in
  markdown_to_jsonl E markdown_files markdown_file_filter output_file w =
    (inr (entries_of E w1 paths),
     World (update (files w1) output_file data)
           (log w1 ++ map FileRead paths ++ [FileWritten output_file data])%list).
Proof.
  intros Hin Hget Hall Hsuffix jsonl data.
  unfold markdown_to_jsonl. rewrite Hin.
  unfold bind at 1. cbn [ret].
  rewrite (bind_inr _ _ _ Hget).
  unfold extract_markdown_entries.
  unfold bind at 1. rewrite extract_loop_ok by exact Hall. cbn [app].
  unfold convert_markdown_entries_to_jsonl.
  rewrite convert_loop_ok
    by (cbn [Nat.add skipn]; rewrite length_entries_files; lia).
  cbn [skipn append]. rewrite combine_entries_files. fold jsonl.
  unfold bind, lift, ret, compress_jsonl_data, dump_jsonl, write_file.
  cbn [files log]. subst data.
  destruct Hsuffix as [Hs|Hs]; rewrite Hs; cbn [String.eqb Ascii.eqb Bool.eqb];
    cbn [files log]; now rewrite <- app_assoc.
Qed.

(** X6: when a file of the input cannot be read, [markdown_to_jsonl]
    raises [FileNotFoundError] for it whatever the output suffix is, and
    writes nothing: no output file is left for the files already read. *)
Theorem markdown_to_jsonl_missing_file
    (markdown_files : option (list string)) (markdown_file_filter : option string)
    (output_file : string) (w : world)
    (before : list string) (missing : string) (rest : list string) (w1 : world) :
  is_none_or_empty (@List.length string) markdown_files
    && is_none_or_empty String.length markdown_file_filter = false ->
  get_markdown_files E markdown_files markdown_file_filter w
    = (inr (before ++ missing :: rest)%list, w1) ->
  Forall (fun p => files w1 p <> None) before ->
  files w1 missing = None ->
  markdown_to_jsonl E markdown_files markdown_file_filter output_file w =
    (inl (FileNotFoundError missing),
     World (files w1) (log w1 ++ map FileRead before)%list).
Proof.
  intros Hin Hget Hall Hmiss.
  unfold markdown_to_jsonl. rewrite Hin.
  unfold bind at 1. cbn [ret].
  rewrite (bind_inr _ _ _ Hget).
  apply bind_inl. now apply extract_loop_missing.
Qed.

End ConverterRuns.

Section ConverterWitnesses.

Import Markdown.

Lemma get_markdown_files_result_witness :
  exists result,
    fst (get_markdown_files Sample.md_env
           (Some ["/notes/a.md"; "/notes/b.md"; "/notes/a.md"]) None
           Sample.notes_world) = inr result /\
    NoDup result /\ In "/notes/b.md" result.
Proof.
  destruct (@get_markdown_files_result Sample.md_env
              (Some ["/notes/a.md"; "/notes/b.md"; "/notes/a.md"]) None
              Sample.notes_world) as (result & Hrun & Hnodup & Hin).
  - intros l. apply Permutation_refl.
  - exists result. rewrite Hrun. repeat split; [exact Hnodup|].
    apply Hin. left.
    exists ["/notes/a.md"; "/notes/b.md"; "/notes/a.md"], "/notes/b.md".
    repeat split. simpl. auto.
Defined.

Lemma extract_missing_file_witness :
  extract_markdown_entries Sample.md_env
    (["/notes/a.md"] ++ "/notes/none.md" :: ["/notes/b.md"])%list
    Sample.notes_world =
  (inl (FileNotFoundError "/notes/none.md"),
   World Sample.notes_fs [FileRead "/notes/a.md"]).
Proof.
  apply (@extract_missing_file Sample.md_env ["/notes/a.md"] "/notes/none.md"
           ["/notes/b.md"] Sample.notes_world).
  - repeat constructor. vm_compute. discriminate.
  - reflexivity.
Defined.

Lemma convert_short_map_witness :
  convert_markdown_entries_to_jsonl ["#A"; "#B"] ["/a.md"] = inl IndexError.
Proof.
  apply (@convert_short_map ["#A"; "#B"] ["/a.md"]). simpl. lia.
Defined.

Lemma markdown_to_jsonl_writes_output_witness :
  let jsonl :=
    jsonl_of_records
      (flat_map (fun p => records_of_file Sample.md_env p
                            (content_of Sample.notes_world p))
                ["/notes/b.md"]) in
  let data := if String.eqb (suffix Sample.md_env "/out/notes.jsonl.gz") ".gz"
              then gzip_compress Sample.md_env jsonl else jsonl in
  markdown_to_jsonl Sample.md_env (Some ["/notes/b.md"]) None
                    "/out/notes.jsonl.gz" Sample.notes_world =
    (inr (entries_of Sample.md_env Sample.notes_world ["/notes/b.md"]),
     World (update (files Sample.notes_world) "/out/notes.jsonl.gz" data)
           (log Sample.notes_world ++ map FileRead ["/notes/b.md"]
              ++ [FileWritten "/out/notes.jsonl.gz" data])%list).
Proof.
  apply (@markdown_to_jsonl_writes_output Sample.md_env (Some ["/notes/b.md"])
           None "/out/notes.jsonl.gz" Sample.notes_world ["/notes/b.md"]
           Sample.notes_world).
  - reflexivity.
  - reflexivity.
  - repeat constructor. vm_compute. discriminate.
  - left. reflexivity.
Defined.

Lemma markdown_to_jsonl_missing_file_witness :
  markdown_to_jsonl Sample.md_env (Some ["/notes/a.md"; "/notes/none.md"]) None
                    "/out/notes.jsonl" Sample.notes_world =
    (inl (FileNotFoundError "/notes/none.md"),
     World (files Sample.notes_world)
           (log Sample.notes_world ++ map FileRead ["/notes/a.md"])%list).
Proof.
  apply (@markdown_to_jsonl_missing_file Sample.md_env
           (Some ["/notes/a.md"; "/notes/none.md"]) None "/out/notes.jsonl"
           Sample.notes_world ["/notes/a.md"] "/notes/none.md" []
           Sample.notes_world).
  - reflexivity.
  - reflexivity.
  - repeat constructor. vm_compute. discriminate.
  - reflexivity.
Defined.

End ConverterWitnesses.

(** * Further properties of the search *)

Section FilterStage.

Import TextSearch.
Variable E : TextSearch.env.
Hypothesis Hset : set_order_ok E.

Lemma in_intersection_update s other i :
  In i (intersection_update E s other) <-> In i s /\ In i other.
Proof.
  unfold intersection_update. split.
  - intros H. apply (Permutation_in _ (Hset _)) in H.
    apply filter_In in H. destruct H as [Hs Ho]. split; [exact Hs|].
    apply existsb_exists in Ho. destruct Ho as (j & Hj & Heq).
    apply Nat.eqb_eq in Heq. now subst j.
  - intros [Hs Ho].
    apply (Permutation_in _ (Permutation_sym (Hset _))).
    apply filter_In. split; [exact Hs|].
    apply existsb_exists. exists i. split; [exact Ho | apply Nat.eqb_refl].
Qed.

Lemma nodup_intersection_update s other :
  NoDup s -> NoDup (intersection_update E s other).
Proof.
  intros H. unfold intersection_update.
  eapply Permutation_NoDup; [symmetry; apply Hset|].
  now apply NoDup_filter.
Qed.

Lemma apply_filters_spec fs :
  forall q es included,
    NoDup included ->
    fst (apply_filters E fs q es included) = filtered_query fs q es /\
    NoDup (snd (apply_filters E fs q es included)) /\
    forall i,
      In i (snd (apply_filters E fs q es included)) <->
      In i included /\ Forall (fun s => In i s) (filter_index_sets fs q es).
Proof.
  induction fs as [|f fs IH]; intros q es included Hnd.
  - cbn. split; [reflexivity|]. split; [exact Hnd|].
    intros i. split; [intros Hi; split; [exact Hi | constructor] | tauto].
  - cbn [apply_filters filtered_query filter_index_sets].
    destruct (apply f q es) as [q1 by_filter] eqn:Hf. cbn [fst snd].
    destruct (IH q1 es (intersection_update E included by_filter)
                 (nodup_intersection_update by_filter Hnd))
      as (Hq & Hnd' & Hin).
    split; [exact Hq|]. split; [exact Hnd'|].
    intros i. split.
    + intros Hi. apply Hin in Hi. destruct Hi as [Hi Hall].
      apply in_intersection_update in Hi.
      split; [tauto | constructor; tauto].
    + intros [Hi Hall]. inversion Hall; subst.
      apply Hin. split; [|assumption].
      apply in_intersection_update. tauto.
Qed.

(** X7: when iterating a set visits each element once, the query that
    leaves the filter stage is the raw query rewritten by the applicable
    filters in turn, and the included indices are, without duplicates,
    exactly the indices of entries that every applicable filter keeps. *)
Theorem filter_stage_intersection (raw : string) (m : TextSearchModel) :
  let fs := List.filter (fun f => can_filter f raw) (filters m) in
  fst (filter_stage E raw m) = filtered_query fs raw (entries m) /\
  NoDup (snd (filter_stage E raw m)) /\
  forall i,
    In i (snd (filter_stage E raw m)) <->
    i < List.length (entries m) /\
    Forall (fun s => In i s) (filter_index_sets fs raw (entries m)).
Proof.
  intros fs. unfold filter_stage. fold fs.
  destruct (@apply_filters_spec fs raw (entries m)
              (set_of_range (List.length (entries m))))
    as (Hq & Hnd & Hin); [apply seq_NoDup|].
  split; [exact Hq|]. split; [exact Hnd|].
  intros i. split.
  - intros Hi. apply Hin in Hi. destruct Hi as [Hi Hall].
    apply in_seq in Hi. split; [lia | exact Hall].
  - intros [Hi Hall]. apply Hin. split; [|exact Hall].
    apply in_seq. lia.
Qed.

End FilterStage.

Lemma filter_stage_intersection_witness :
  fst (TextSearch.filter_stage Sample.text_env "+hello" Sample.text_model)
    = "hello" /\
  NoDup (snd (TextSearch.filter_stage Sample.text_env "+hello" Sample.text_model)) /\
  In 2 (snd (TextSearch.filter_stage Sample.text_env "+hello" Sample.text_model)).
Proof.
  destruct (@filter_stage_intersection Sample.text_env sample_set_order_ok
              "+hello" Sample.text_model) as (Hq & Hnd & Hin).
  split; [exact Hq|]. split; [exact Hnd|].
  apply Hin. split; [simpl; lia|].
  constructor; [simpl; auto | constructor].
Defined.

Section SortPermutation.

Import PySort.

Lemma insert_permutation {A} (leb : A -> A -> bool) x l :
  Permutation (insert leb x l) (x :: l).
Proof.
  induction l as [|y l IH]; simpl; [reflexivity|].
  destruct (leb x y); [reflexivity|].
  rewrite IH. apply perm_swap.
Qed.

Lemma stable_sort_permutation {A} (leb : A -> A -> bool) l :
  Permutation (stable_sort leb l) l.
Proof.
  induction l as [|x l IH]; simpl; [reflexivity|].
  rewrite insert_permutation. now constructor.
Qed.

(** Sorting drops and repeats nothing. *)
Lemma sort_reverse_permutation {A} (key : A -> exn + Q) l l' :
  sort_reverse key l = inr l' -> Permutation l' l.
Proof.
  unfold sort_reverse. intros H.
  destruct (decorate key l) as [e|kl] eqn:Hd; [discriminate|].
  inversion H; subst. destruct (@decorate_inr _ _ _ _ Hd) as [Hm _].
  rewrite <- Hm. apply Permutation_map.
  rewrite <- Permutation_rev, stable_sort_permutation.
  symmetry. apply Permutation_rev.
Qed.

End SortPermutation.

Section QueryEffects.

Import TextSearch PySort.
Variable E : TextSearch.env.

Lemma cross_inputs_pairs q es hits ps :
  cross_inputs q es hits = inr ps ->
  Forall2 (fun h p => fst p = q /\
                      exists e, nth_error es (corpus_id h) = Some e /\
                                snd p = compiled e) hits ps.
Proof.
  revert ps. induction hits as [|h hits IH]; simpl; intros ps H.
  - inversion H. constructor.
  - destruct (nth_error es (corpus_id h)) as [e|] eqn:Hn; [|discriminate].
    destruct (cross_inputs q es hits) as [err|ps']; [discriminate|].
    inversion H; subst. constructor; [|now apply IH].
    simpl. eauto.
Qed.

(** The world after a run of [search_and_rank] that returns. *)
Lemma search_and_rank_world m q ents embs rank w hits ents' w' :
  search_and_rank E m q ents embs rank w = (inr (hits, ents'), w') ->
  exists raw_hits rest ps,
    semantic_search E (normalize_embeddings E (bi_encoder m [q])) embs (top_k m)
      = raw_hits :: rest /\
    (rank = true ->
     cross_inputs q ents (map (fun h => Hit (fst h) (snd h) None) raw_hits)
       = inr ps) /\
    w' = World (files w)
           (log w ++ BiEncoded [q]
              :: Searched (normalize_embeddings E (bi_encoder m [q])) embs
                          (top_k m)
              :: (if rank then [CrossEncoded ps] else []))%list.
Proof.
  unfold search_and_rank, bind, emit, lift, ret. cbn [files log].
  destruct (semantic_search E _ embs (top_k m)) as [|raw_hits rest] eqn:Hs;
    [discriminate|].
  destruct rank.
  - destruct (cross_inputs q ents _) as [e|ps] eqn:Hc; [discriminate|].
    cbn [files log].
    destruct (set_cross_scores _ (cross_encoder m ps)) as [e|hits1];
      [discriminate|].
    destruct (sort_reverse score_key hits1) as [e|hits2]; [discriminate|].
    destruct (sort_reverse cross_score_key hits2) as [e|hits3]; [discriminate|].
    intros H. inversion H; subst.
    exists raw_hits, rest, ps. repeat split; auto.
    now rewrite <- !app_assoc.
  - destruct (sort_reverse score_key _) as [e|hits2]; [discriminate|].
    intros H. inversion H; subst.
    exists raw_hits, rest, []. repeat split; [discriminate|].
    now rewrite <- !app_assoc.
Qed.

(** X8: a run of [query] that returns leaves the files as they are.
    Either it logs nothing at all (no entry was left to search), or it
    calls the bi-encoder once, on the filtered query, then the search once,
    on the narrowed embeddings with the model's [top_k], and, only when
    [rank_results] is true, the cross-encoder once, on the pairs of the
    filtered query and the compiled text of each hit's entry, in the order
    of the search. *)
Theorem query_effects raw m rank w hits ents w' :
  query E raw m rank w = (inr (hits, ents), w') ->
  (w' = w /\ hits = [] /\ ents = []) \/
  exists q idxs embs raw_hits rest ps,
    filter_stage E raw m = (q, idxs) /\
    select (corpus_embeddings m) idxs = inr embs /\
    semantic_search E (normalize_embeddings E (bi_encoder m [q])) embs (top_k m)
      = raw_hits :: rest /\
    (rank = true ->
     Forall2 (fun h p => fst p = q /\
                         exists e, nth_error ents (fst h) = Some e /\
                                   snd p = compiled e) raw_hits ps) /\
    w' = World (files w)
           (log w ++ BiEncoded [q]
              :: Searched (normalize_embeddings E (bi_encoder m [q])) embs
                          (top_k m)
              :: (if rank then [CrossEncoded ps] else []))%list.
Proof.
  intros H. destruct (@query_inr E _ _ _ _ _ _ _ H) as [(-> & -> & ->)|Hrun].
  - left. auto.
  - right. destruct Hrun as (q & idxs & embs & Hf & Hn & Hs).
    destruct (@narrow_inr _ _ _ _ Hn) as [_ Hsv].
    destruct (@search_and_rank_world _ _ _ _ _ _ _ _ _ Hs)
      as (raw_hits & rest & ps & Hsearch & Hps & Hw).
    exists q, idxs, embs, raw_hits, rest, ps.
    repeat (split; [assumption|]). split; [|exact Hw].
    intros Hrank. specialize (Hps Hrank).
    apply cross_inputs_pairs in Hps.
    clear - Hps. remember (map _ raw_hits) as hs eqn:Hhs.
    revert raw_hits Hhs. induction Hps as [|h p hs ps Hp _ IH];
      intros [|rh raw_hits] Hhs; try discriminate; constructor.
    + inversion Hhs; subst. exact Hp.
    + inversion Hhs; subst. now apply IH.
Qed.

End QueryEffects.

Section QueryHits.

Import TextSearch PySort.
Variable E : TextSearch.env.

Lemma sort_reverse_keys {A} (key : A -> exn + Q) l l' :
  sort_reverse key l = inr l' ->
  forall x, In x l -> exists k, key x = inr k.
Proof.
  unfold sort_reverse. intros H.
  destruct (decorate key l) as [e|kl] eqn:Hd; [discriminate|].
  exact (@decorate_keys _ _ _ _ Hd).
Qed.

Lemma set_cross_scores_pairs hits :
  forall cs hs, set_cross_scores hits cs = inr hs ->
  map (fun h => (corpus_id h, score h)) hs =
  map (fun h => (corpus_id h, score h)) hits.
Proof.
  induction hits as [|h hits IH]; intros [|c cs] hs H; simpl in H.
  - now inversion H.
  - discriminate.
  - now inversion H.
  - destruct (set_cross_scores hits cs) as [e|hs'] eqn:Hs; [discriminate|].
    inversion H; subst. simpl. now rewrite (IH _ _ Hs).
Qed.

Lemma query_cross_scores raw m rank w hits ents w' :
  query E raw m rank w = (inr (hits, ents), w') ->
  Forall (fun h => if rank then cross_score h <> None
                   else cross_score h = None) hits.
Proof.
  intros H. destruct (@query_inr E _ _ _ _ _ _ _ H) as [(-> & _)|Hrun];
    [constructor|].
  destruct Hrun as (q & idxs & embs & _ & _ & Hs).
  destruct (@search_and_rank_inr E _ _ _ _ _ _ _ _ _ Hs) as
    (raw_hits & rest & hits1 & hits2 & evs & _ & Hcross & Hs1 & Hs2 & _).
  apply Forall_forall. intros h Hh.
  destruct rank.
  - apply (@sort_reverse_in _ _ _ _ Hs2) in Hh.
    destruct (@sort_reverse_keys _ _ _ _ Hs2 h Hh) as [k Hk].
    unfold cross_score_key in Hk.
    destruct (cross_score h); [discriminate | discriminate].
  - subst hits hits1. apply (@sort_reverse_in _ _ _ _ Hs1) in Hh.
    apply in_map_iff in Hh. destruct Hh as (rh & <- & _). reflexivity.
Qed.

(** X9: the hits [query] returns carry a cross-encoder score exactly
    when [rank_results] is true: all of them then, none of them otherwise. *)
Theorem query_cross_score_presence raw m rank w hits ents w' :
  query E raw m rank w = (inr (hits, ents), w') ->
  Forall (fun h => if rank then cross_score h <> None
                   else cross_score h = None) hits.
Proof. apply query_cross_scores. Qed.

(** X10: when [query] searches, it returns every hit of the search once,
    with its [corpus_id] and score unchanged: sorting and reranking only
    reorder the hits and add the cross-encoder score. *)
Theorem query_keeps_search_hits raw m rank w hits ents w' :
  query E raw m rank w = (inr (hits, ents), w') ->
  (hits = [] /\ ents = [] /\ w' = w) \/
  exists q idxs embs raw_hits rest,
    filter_stage E raw m = (q, idxs) /\
    select (corpus_embeddings m) idxs = inr embs /\
    semantic_search E (normalize_embeddings E (bi_encoder m [q])) embs (top_k m)
      = raw_hits :: rest /\
    Permutation (map (fun h => (corpus_id h, score h)) hits) raw_hits.
Proof.
  intros H. destruct (@query_inr E _ _ _ _ _ _ _ H) as [Hnone|Hrun];
    [left; exact Hnone | right].
  destruct Hrun as (q & idxs & embs & Hf & Hn & Hs).
  destruct (@narrow_inr _ _ _ _ Hn) as [_ Hsv].
  destruct (@search_and_rank_inr E _ _ _ _ _ _ _ _ _ Hs) as
    (raw_hits & rest & hits1 & hits2 & evs & Hsearch & Hcross & Hs1 & Hs2 & _).
  exists q, idxs, embs, raw_hits, rest.
  repeat (split; [assumption|]).
  assert (H2 : Permutation hits hits2).
  { destruct rank; [|now subst hits].
    exact (sort_reverse_permutation _ _ Hs2). }
  rewrite H2, (sort_reverse_permutation _ _ Hs1).
  assert (H1 : map (fun h => (corpus_id h, score h)) hits1 = raw_hits).
  { transitivity (map (fun h => (corpus_id h, score h))
                      (map (fun h => Hit (fst h) (snd h) None) raw_hits)).
    - destruct rank; [|now subst hits1].
      destruct Hcross as (ps & _ & Hset).
      exact (@set_cross_scores_pairs _ _ _ Hset).
    - rewrite map_map. simpl. clear.
      induction raw_hits as [|[i s] l IH]; simpl; [reflexivity | now rewrite IH]. }
  now rewrite H1.
Qed.

Lemma select_out_of_range {A} (l : list A) ids :
  Exists (fun i => List.length l <= i) ids -> select l ids = inl IndexError.
Proof.
  induction ids as [|i ids IH]; intros H; [inversion H|].
  simpl. destruct (nth_error l i) as [x|] eqn:Hn; [|reflexivity].
  inversion H as [? ? Hi|? ? Hrest]; subst.
  - apply nth_error_None in Hi. congruence.
  - now rewrite IH.
Qed.

(** X11: when iterating a set visits each element once and an included
    entry has no embedding row (the embeddings are shorter than the entry
    list), [query] raises [IndexError] before any model is called. *)
Theorem query_missing_embedding raw m rank w :
  set_order_ok E ->
  Exists (fun i => List.length (corpus_embeddings m) <= i)
         (snd (filter_stage E raw m)) ->
  query E raw m rank w = (inl IndexError, w).
Proof.
  intros Hset Hex. unfold query.
  destruct (filter_stage E raw m) as [q idxs] eqn:Hf. cbn [snd] in Hex.
  pose proof (@filter_stage_in_range E raw m q idxs Hset Hf) as Hrange.
  destruct (@select_total _ (entries m) idxs Hrange) as [es Hes].
  destruct idxs as [|i idxs]; [inversion Hex|].
  unfold bind, lift, narrow.
  now rewrite Hes, (select_out_of_range _ Hex).
Qed.

End QueryHits.

Section QueryHitsWitnesses.

Import TextSearch.

Lemma sample_hello_ranked :
  query Sample.text_env "hello" Sample.text_model true Sample.quiet_world
    = (inr (Sample.hello_hits_ranked, Sample.corpus), Sample.hello_world_ranked).
Proof. reflexivity. Qed.

Lemma sample_hello_unranked :
  query Sample.text_env "hello" Sample.text_model false Sample.quiet_world
    = (inr (Sample.hello_hits_unranked, Sample.corpus),
       Sample.hello_world_unranked).
Proof. reflexivity. Qed.

Lemma query_effects_witness :
  (Sample.hello_world_ranked = Sample.quiet_world /\
   Sample.hello_hits_ranked = [] /\ Sample.corpus = []) \/
  exists q idxs embs raw_hits rest ps,
    filter_stage Sample.text_env "hello" Sample.text_model = (q, idxs) /\
    select (corpus_embeddings Sample.text_model) idxs = inr embs /\
    semantic_search Sample.text_env
      (normalize_embeddings Sample.text_env
         (bi_encoder Sample.text_model [q])) embs (top_k Sample.text_model)
      = raw_hits :: rest /\
    (true = true ->
     Forall2 (fun h p => fst p = q /\
                         exists e, nth_error Sample.corpus (fst h) = Some e /\
                                   snd p = compiled e) raw_hits ps) /\
    Sample.hello_world_ranked =
      World (files Sample.quiet_world)
        (log Sample.quiet_world ++ BiEncoded [q]
           :: Searched (normalize_embeddings Sample.text_env
                          (bi_encoder Sample.text_model [q])) embs
                       (top_k Sample.text_model)
           :: [CrossEncoded ps])%list.
Proof.
  exact (@query_effects Sample.text_env "hello" Sample.text_model true
           Sample.quiet_world Sample.hello_hits_ranked Sample.corpus
           Sample.hello_world_ranked sample_hello_ranked).
Defined.

Lemma query_cross_score_presence_witness :
  Forall (fun h => cross_score h = None) Sample.hello_hits_unranked.
Proof.
  exact (@query_cross_score_presence Sample.text_env "hello" Sample.text_model
           false Sample.quiet_world Sample.hello_hits_unranked Sample.corpus
           Sample.hello_world_unranked sample_hello_unranked).
Defined.

Lemma query_keeps_search_hits_witness :
  (Sample.hello_hits_ranked = [] /\ Sample.corpus = [] /\
   Sample.hello_world_ranked = Sample.quiet_world) \/
  exists q idxs embs raw_hits rest,
    filter_stage Sample.text_env "hello" Sample.text_model = (q, idxs) /\
    select (corpus_embeddings Sample.text_model) idxs = inr embs /\
    semantic_search Sample.text_env
      (normalize_embeddings Sample.text_env
         (bi_encoder Sample.text_model [q])) embs (top_k Sample.text_model)
      = raw_hits :: rest /\
    Permutation (map (fun h => (corpus_id h, score h)) Sample.hello_hits_ranked)
                raw_hits.
Proof.
  exact (@query_keeps_search_hits Sample.text_env "hello" Sample.text_model true
           Sample.quiet_world Sample.hello_hits_ranked Sample.corpus
           Sample.hello_world_ranked sample_hello_ranked).
Defined.

Lemma query_missing_embedding_witness :
  query Sample.text_env "hello" Sample.stale_model false Sample.quiet_world
    = (inl IndexError, Sample.quiet_world).
Proof.
  apply (@query_missing_embedding Sample.text_env "hello" Sample.stale_model
           false Sample.quiet_world sample_set_order_ok).
  apply Exists_cons_tl, Exists_cons_hd. simpl. lia.
Defined.

End QueryHitsWitnesses.

(** * Showing the results *)

Section SliceFacts.

Variable A : Type.

Lemma slice_to_incl (count : Z) (l : list A) x :
  In x (slice_to count l) -> In x l.
Proof.
  unfold slice_to. intros H.
  rewrite <- (firstn_skipn (Z.to_nat (if (count <? 0)%Z
                                      then (Z.of_nat (List.length l) + count)%Z
                                      else count)) l).
  apply in_or_app. now left.
Qed.

Lemma slice_to_length (count : Z) (l : list A) :
  List.length (slice_to count l) =
  if (count <? 0)%Z then List.length l - Z.to_nat (- count)
  else Nat.min (Z.to_nat count) (List.length l).
Proof.
  unfold slice_to. rewrite length_firstn.
  destruct (count <? 0)%Z eqn:Hc; [|reflexivity].
  apply Z.ltb_lt in Hc. lia.
Qed.

Lemma forall_slice_to (P : A -> Prop) (count : Z) (l : list A) :
  Forall P l -> Forall P (slice_to count l).
Proof.
  intros H. apply Forall_forall. intros x Hx.
  apply slice_to_incl in Hx. rewrite Forall_forall in H. auto.
Qed.

End SliceFacts.

Section Collate.

Import TextSearch PySort.
Variable format_3f : Q -> string.

Lemma collate_loop_total hits entries :
  Forall (fun h => corpus_id h < List.length entries) hits ->
  exists rows, collate_loop format_3f hits entries = inr rows /\
               Forall2 (fun h r =>
                          collated_score r = format_3f (shown_score h) /\
                          exists e, nth_error entries (corpus_id h) = Some e /\
                                    collated_entry r = raw e) hits rows.
Proof.
  induction 1 as [|h hits Hh _ (rows & IH & Hrows)]; simpl.
  - exists []. split; [reflexivity | constructor].
  - destruct (nth_error entries (corpus_id h)) as [e|] eqn:Hn.
    + rewrite IH. eexists. split; [reflexivity|].
      constructor; [|exact Hrows]. split; [reflexivity|]. eauto.
    + apply nth_error_None in Hn. lia.
Qed.

Lemma collate_loop_error hits entries :
  Exists (fun h => List.length entries <= corpus_id h) hits ->
  collate_loop format_3f hits entries = inl IndexError.
Proof.
  induction hits as [|h hits IH]; intros H; [inversion H|].
  simpl. destruct (nth_error entries (corpus_id h)) as [e|] eqn:Hn;
    [|reflexivity].
  inversion H as [? ? Hi|? ? Hrest]; subst.
  - apply nth_error_None in Hi. congruence.
  - now rewrite IH.
Qed.

(** X12: [collate_results] keeps the hits of [hits[0:count]]: the first
    [count] of them, or all but the last [-count] when [count] is
    negative.  When each of these names an entry it returns one row for
    each, in order, with the raw text of that entry and the formatted
    cross-encoder score when the hit has one and bi-encoder score
    otherwise; when one of them does not, it raises [IndexError], and hits
    beyond the kept ones are never looked at. *)
Theorem collate_results_rows (hits : list hit) (entries : list entry) (count : Z) :
  (Forall (fun h => corpus_id h < List.length entries) (slice_to count hits) ->
   exists rows,
     collate_results format_3f hits entries count = inr rows /\
     Forall2 (fun h r =>
                collated_score r = format_3f (shown_score h) /\
                exists e, nth_error entries (corpus_id h) = Some e /\
                          collated_entry r = raw e)
             (slice_to count hits) rows) /\
  (Exists (fun h => List.length entries <= corpus_id h) (slice_to count hits) ->
   collate_results format_3f hits entries count = inl IndexError) /\
  List.length (slice_to count hits) =
    (if (count <? 0)%Z then List.length hits - Z.to_nat (- count)
     else Nat.min (Z.to_nat count) (List.length hits)).
Proof.
  split; [|split].
  - intros H. exact (@collate_loop_total _ _ H).
  - intros H. exact (@collate_loop_error _ _ H).
  - apply slice_to_length.
Qed.

End Collate.

Section ResultsOfQuery.

Import TextSearch PySort.
Variable E : TextSearch.env.
Variable format_3f : Q -> string.

Lemma select_in {A} (l : list A) ids xs :
  select l ids = inr xs -> forall x, In x xs -> In x l.
Proof.
  revert xs. induction ids as [|i ids IH]; simpl; intros xs H x Hx.
  - inversion H; subst. destruct Hx.
  - destruct (nth_error l i) as [y|] eqn:Hn; [|discriminate].
    destruct (select l ids) as [e|ys]; [discriminate|].
    inversion H; subst. destruct Hx as [<-|Hx].
    + eapply nth_error_In; eauto.
    + eapply IH; eauto.
Qed.

(** With a search library whose hits name rows of the corpus it was given,
    the hits of [query] name returned entries. *)
Lemma query_hits_in_range raw_query m rank w hits ents w' :
  search_ok E ->
  query E raw_query m rank w = (inr (hits, ents), w') ->
  Forall (fun h => corpus_id h < List.length ents) hits.
Proof.
  intros Hok H.
  destruct (@query_inr E _ _ _ _ _ _ _ H) as [(-> & _)|Hrun]; [constructor|].
  destruct Hrun as (q & idxs & embs & Hf & Hn & Hs).
  destruct (@narrow_inr _ _ _ _ Hn) as [Hse Hsv].
  destruct (@search_and_rank_inr E _ _ _ _ _ _ _ _ _ Hs) as
    (raw_hits & rest & hits1 & hits2 & evs & Hsearch & Hcross & Hs1 & Hs2 & _).
  rewrite (@select_length _ _ _ _ Hse), <- (@select_length _ _ _ _ Hsv).
  assert (Hraw : Forall (fun h => corpus_id h < List.length embs)
                        (map (fun h => Hit (fst h) (snd h) None) raw_hits))
    by (eapply raw_hits_in_range; eauto).
  assert (H1 : Forall (fun h => corpus_id h < List.length embs) hits1).
  { destruct rank; [|now subst hits1].
    destruct Hcross as (ps & _ & Hset).
    destruct (@set_cross_scores_inr _ _ _ Hset) as [Hc _].
    apply Forall_forall. intros h Hh.
    apply (in_map corpus_id) in Hh. rewrite Hc in Hh.
    apply in_map_iff in Hh. destruct Hh as (h0 & <- & Hh0).
    rewrite Forall_forall in Hraw. auto. }
  apply Forall_forall. intros h Hh. rewrite Forall_forall in H1. apply H1.
  apply (@sort_reverse_in _ _ _ _ Hs1).
  destruct rank; [|now subst hits].
  now apply (@sort_reverse_in _ _ _ _ Hs2).
Qed.

Lemma query_entries_of_model raw_query m rank w hits ents w' :
  query E raw_query m rank w = (inr (hits, ents), w') ->
  forall e, In e ents -> In e (entries m).
Proof.
  intros H e He.
  destruct (@query_inr E _ _ _ _ _ _ _ H) as [(_ & -> & _)|Hrun];
    [destruct He|].
  destruct Hrun as (q & idxs & embs & _ & Hn & _).
  destruct (@narrow_inr _ _ _ _ Hn) as [Hse _].
  eapply select_in; eauto.
Qed.

(** X13: with a search library whose hits name rows of the corpus it was
    given, [collate_results] on what [query] returned never raises: it
    gives one row for each of the hits kept, in the order of the hits, with
    the raw text of an entry of the model and the formatted cross-encoder
    score when [rank_results] was true, bi-encoder score otherwise. *)
Theorem collate_after_query raw_query m rank w hits ents w' (count : Z) :
  search_ok E ->
  query E raw_query m rank w = (inr (hits, ents), w') ->
  exists rows,
    collate_results format_3f hits ents count = inr rows /\
    Forall2 (fun h r =>
               (if rank
                then exists c, cross_score h = Some c /\
                               collated_score r = format_3f c
                else collated_score r = format_3f (score h)) /\
               exists e, In e (entries m) /\ collated_entry r = raw e)
            (slice_to count hits) rows.
Proof.
  intros Hok H.
  pose proof (@query_hits_in_range _ _ _ _ _ _ _ Hok H) as Hrange.
  pose proof (@query_cross_scores E _ _ _ _ _ _ _ H) as Hcross.
  destruct (@collate_loop_total format_3f _ _
              (@forall_slice_to _ _ count _ Hrange)) as (rows & Hrows & Hall).
  exists rows. split; [exact Hrows|].
  apply (@forall_slice_to _ _ count) in Hcross.
  revert Hcross. clear Hrows.
  induction Hall as [|h r hs rs (Hscore & e & He & Hraw) _ IH];
    intros Hcross; constructor.
  - inversion Hcross as [|? ? Hh _]; subst. split.
    + unfold shown_score in Hscore. destruct rank.
      * destruct (cross_score h) as [c|]; [eauto | congruence].
      * now rewrite Hh in Hscore.
    + exists e. split; [|exact Hraw].
      apply (@query_entries_of_model _ _ _ _ _ _ _ H). eapply nth_error_In; eauto.
  - apply IH. now inversion Hcross.
Qed.

End ResultsOfQuery.

Lemma collate_after_query_witness :
  exists rows,
    TextSearch.collate_results Sample.show_fraction Sample.hello_hits_ranked
                               Sample.corpus 2 = inr rows /\
    Forall2 (fun h r =>
               (exists c, TextSearch.cross_score h = Some c /\
                          TextSearch.collated_score r = Sample.show_fraction c) /\
               exists e, In e (TextSearch.entries Sample.text_model) /\
                         TextSearch.collated_entry r = TextSearch.raw e)
            (slice_to 2 Sample.hello_hits_ranked) rows.
Proof.
  exact (@collate_after_query Sample.text_env Sample.show_fraction "hello"
           Sample.text_model true Sample.quiet_world Sample.hello_hits_ranked
           Sample.corpus Sample.hello_world_ranked 2 sample_search_ok
           sample_hello_ranked).
Defined.

Section SortedAlready.

Import PySort.

Lemma stable_sort_sorted {A} (l : list (Q * A)) :
  StronglySorted (fun p q => (fst p <= fst q)%Q) l ->
  stable_sort key_leb l = l.
Proof.
  induction 1 as [|x l Hs IH Hf]; [reflexivity|].
  simpl. rewrite IH. destruct l as [|y l]; [reflexivity|].
  simpl. inversion Hf as [|? ? Hxy _]; subst.
  unfold key_leb at 1. apply Qle_bool_iff in Hxy. now rewrite Hxy.
Qed.

(** Sorting a list that is already in falling order of its keys leaves it
    as it is. *)
Lemma sort_reverse_sorted_already {A} (key : A -> exn + Q) (l : list A) :
  (forall x, In x l -> exists k, key x = inr k) ->
  StronglySorted (fun a b => exists ka kb, key a = inr ka /\ key b = inr kb /\
                                           (kb <= ka)%Q) l ->
  sort_reverse key l = inr l.
Proof.
  intros Hkeys Hsorted. unfold sort_reverse.
  destruct (@decorate_total _ _ _ Hkeys) as [kl Hd]. rewrite Hd.
  destruct (@decorate_inr _ _ _ _ Hd) as [Hm Hk].
  assert (Hkl : StronglySorted (fun p q => (fst q <= fst p)%Q) kl).
  { rewrite <- Hm in Hsorted. apply strongly_sorted_unmap in Hsorted.
    eapply strongly_sorted_weaken; [|exact Hsorted].
    intros p q Hp Hq (ka & kb & Ha & Hb & Hle). cbv beta in *.
    rewrite Forall_forall in Hk.
    rewrite (Hk p Hp) in Ha. rewrite (Hk q Hq) in Hb.
    inversion Ha; inversion Hb; subst. exact Hle. }
  apply strongly_sorted_rev in Hkl.
  rewrite (@stable_sort_sorted _ _ Hkl), rev_involutive, Hm. reflexivity.
Qed.

End SortedAlready.

Section Render.

Import TextSearch PySort.
Variable E : TextSearch.env.
Variable format_3f : Q -> string.

Lemma sort_by_missing_cross_score hits :
  Exists (fun h => cross_score h = None) hits ->
  sort_reverse cross_score_key hits = inl KeyError.
Proof.
  intros H. unfold sort_reverse.
  assert (Hd : decorate cross_score_key hits = inl KeyError).
  { induction hits as [|h hits IH]; [inversion H|].
    simpl. unfold cross_score_key at 1.
    destruct (cross_score h) as [c|] eqn:Hc; [|reflexivity].
    inversion H as [? ? Hh|? ? Hrest]; subst; [congruence|].
    now rewrite IH. }
  now rewrite Hd.
Qed.

Lemma print_hits_ok (line : hit -> exn + string) hits texts :
  Forall2 (fun h t => line h = inr t) hits texts ->
  forall w, print_hits line hits w =
            (inr tt, World (files w) (log w ++ map Printed texts)%list).
Proof.
  induction 1 as [|h t hits texts Hh _ IH]; intros w.
  - simpl. unfold ret. rewrite app_nil_r. now destruct w.
  - cbn [print_hits]. unfold bind, lift, print, emit. rewrite Hh, IH.
    cbn [files log map]. now rewrite <- app_assoc.
Qed.

(** X14: the hits [query] returns when [rank_results] is false, the
    default, cannot be rendered: if there is any, [render_results] prints
    the two heading lines of the re-ranker section and raises [KeyError],
    however small [count] is. *)
Theorem render_unranked_hits raw_query m w hits ents w' (count : Z) (w0 : world) :
  query E raw_query m false w = (inr (hits, ents), w') ->
  hits <> [] ->
  render_results format_3f hits ents count false w0 =
    (inl KeyError,
     World (files w0)
           (log w0 ++ [Printed rule;
                       Printed ("Top-" ++ str_of_int count
                                  ++ " Cross-Encoder Re-ranker hits")])%list).
Proof.
  intros H Hne.
  pose proof (@query_cross_scores E _ _ _ _ _ _ _ H) as Hcross.
  assert (Hex : Exists (fun h => cross_score h = None) hits).
  { destruct hits as [|h hits]; [congruence|].
    inversion Hcross; subst. now constructor. }
  unfold render_results, bind, ret, print, emit, lift. cbn [files log].
  rewrite (@sort_by_missing_cross_score _ Hex).
  now rewrite <- app_assoc.
Qed.

Lemma cross_score_lines hits ents :
  Forall (fun h => corpus_id h < List.length ents) hits ->
  Forall (fun h => cross_score h <> None) hits ->
  exists texts,
    Forall2 (fun h t => cross_score_line format_3f ents h = inr t) hits texts.
Proof.
  induction 1 as [|h hits Hh _ IH]; intros Hc.
  - exists []. constructor.
  - inversion Hc as [|? ? Hhc Hrest]; subst.
    destruct (IH Hrest) as [texts Htexts].
    unfold cross_score_line at 1.
    destruct (cross_score h) as [c|] eqn:Hcs; [|congruence].
    destruct (nth_error ents (corpus_id h)) as [e|] eqn:Hn.
    + eexists (_ :: texts). constructor; [|exact Htexts].
      unfold cross_score_line. rewrite Hcs, Hn. reflexivity.
    + apply nth_error_None in Hn. lia.
Qed.

(** X15: with a search library whose hits name rows of the corpus it was
    given, [render_results] on what [query] returned with [rank_results]
    true never raises: it prints the two heading lines and then one text
    for each of the hits kept by [count], in the order [query] returned
    them. *)
Theorem render_ranked_hits raw_query m w hits ents w' (count : Z) (w0 : world) :
  search_ok E ->
  query E raw_query m true w = (inr (hits, ents), w') ->
  exists texts,
    Forall2 (fun h t => cross_score_line format_3f ents h = inr t)
            (slice_to count hits) texts /\
    render_results format_3f hits ents count false w0 =
      (inr tt,
       World (files w0)
             (log w0 ++ Printed rule
                :: Printed ("Top-" ++ str_of_int count
                              ++ " Cross-Encoder Re-ranker hits")
                :: map Printed texts)%list).
Proof.
  intros Hok H.
  pose proof (@query_hits_in_range _ _ _ _ _ _ _ _ Hok H) as Hrange.
  pose proof (@query_cross_scores E _ _ _ _ _ _ _ H) as Hcross.
  cbv beta iota in Hcross.
  destruct (@cross_score_lines _ ents
              (@forall_slice_to _ _ count _ Hrange)
              (@forall_slice_to _ _ count _ Hcross)) as [texts Htexts].
  exists texts. split; [exact Htexts|].
  assert (Hsort : sort_reverse cross_score_key hits = inr hits).
  { apply sort_reverse_sorted_already.
    - intros h Hh. rewrite Forall_forall in Hcross.
      specialize (Hcross h Hh). unfold cross_score_key.
      destruct (cross_score h); [eauto | congruence].
    - destruct (@query_inr E _ _ _ _ _ _ _ H) as [(-> & _)|Hrun];
        [constructor|].
      destruct Hrun as (q & idxs & embs & _ & _ & Hs).
      pose proof (@search_and_rank_sorted E _ _ _ _ _ _ _ _ _ Hs) as Hsorted.
      cbv beta iota in Hsorted.
      eapply strongly_sorted_weaken; [|exact Hsorted].
      intros a b _ _ (ca & cb & Ha & Hb & Hord).
      exists ca, cb. unfold cross_score_key. rewrite Ha, Hb.
      repeat split. destruct Hord as [Hlt|[Heq _]].
      + now apply Qlt_le_weak.
      + rewrite Heq. apply Qle_refl. }
  unfold render_results, bind, ret, print, emit, lift. cbn [files log].
  rewrite Hsort, (@print_hits_ok _ _ _ Htexts). cbn [files log].
  now rewrite <- !app_assoc.
Qed.

End Render.

Lemma render_unranked_hits_witness :
  TextSearch.render_results Sample.show_fraction Sample.hello_hits_unranked
      Sample.corpus 5 false Sample.quiet_world =
    (inl KeyError,
     World (files Sample.quiet_world)
           (log Sample.quiet_world
              ++ [Printed TextSearch.rule;
                  Printed ("Top-" ++ str_of_int 5
                             ++ " Cross-Encoder Re-ranker hits")])%list).
Proof.
  apply (@render_unranked_hits Sample.text_env Sample.show_fraction "hello"
           Sample.text_model Sample.quiet_world Sample.hello_hits_unranked
           Sample.corpus Sample.hello_world_unranked 5 Sample.quiet_world
           sample_hello_unranked).
  discriminate.
Defined.

Lemma render_ranked_hits_witness :
  exists texts,
    Forall2 (fun h t => TextSearch.cross_score_line Sample.show_fraction
                          Sample.corpus h = inr t)
            (slice_to 2 Sample.hello_hits_ranked) texts /\
    TextSearch.render_results Sample.show_fraction Sample.hello_hits_ranked
        Sample.corpus 2 false Sample.quiet_world =
      (inr tt,
       World (files Sample.quiet_world)
             (log Sample.quiet_world ++ Printed TextSearch.rule
                :: Printed ("Top-" ++ str_of_int 2
                              ++ " Cross-Encoder Re-ranker hits")
                :: map Printed texts)%list).
Proof.
  exact (@render_ranked_hits Sample.text_env Sample.show_fraction "hello"
           Sample.text_model Sample.quiet_world Sample.hello_hits_ranked
           Sample.corpus Sample.hello_world_ranked 2 Sample.quiet_world
           sample_search_ok sample_hello_ranked).
Defined.

(** * The embedding cache and the set-up *)

Section CacheEdges.

Import TextSearch.
Variable E : TextSearch.env.

(** X16: with an embeddings file in place and [regenerate] false,
    [compute_embeddings] never looks at the entries or the bi-encoder: for
    any two corpora and encoders it ends the same way in the same world,
    with every file as it was; the embeddings of a changed corpus stay as
    they were saved. *)
Theorem compute_embeddings_cached_ignores_corpus
    (entries1 entries2 : list entry) (encoder1 encoder2 : list string -> tensor)
    (embeddings_file : string) (w : world) :
  files w embeddings_file <> None ->
  compute_embeddings E entries1 encoder1 embeddings_file false w =
    compute_embeddings E entries2 encoder2 embeddings_file false w /\
  files (snd (compute_embeddings E entries1 encoder1 embeddings_file false w))
    = files w.
Proof.
  intros Hfile. unfold compute_embeddings, bind, exists_file.
  destruct (files w embeddings_file) as [content|] eqn:Hc; [|congruence].
  cbn [andb negb]. split; [reflexivity|].
  unfold torch_load_file, bind, read_file.
  destruct (files w (get_absolute_path E embeddings_file)) as [c|];
    [|reflexivity].
  cbn [files]. destruct (torch_load E c); reflexivity.
Qed.

(** X17: an embeddings file that [torch.load] cannot read is not
    regenerated: with [regenerate] false [compute_embeddings] reads the
    file and raises the error of the load; it calls no encoder and writes
    nothing. *)
Theorem compute_embeddings_unreadable_cache
    (entries : list entry) (bi_encoder : list string -> tensor)
    (embeddings_file content : string) (w : world) :
  get_absolute_path E embeddings_file = embeddings_file ->
  files w embeddings_file = Some content ->
  torch_load E content = None ->
  compute_embeddings E entries bi_encoder embeddings_file false w =
    (inl (UnpicklingError embeddings_file),
     World (files w) (log w ++ [FileRead embeddings_file])%list).
Proof.
  intros Hpath Hfile Hload.
  unfold compute_embeddings, bind, exists_file, torch_load_file, read_file.
  rewrite Hpath, Hfile. cbn [andb negb].
  unfold bind. now rewrite Hfile, Hload.
Qed.

(** X18: when the file does not exist or [regenerate] is true, and the
    bi-encoder gives a row for each text and normalizing keeps the rows,
    [compute_embeddings] returns one embedding row for each entry and leaves
    the embeddings file holding what [torch.save] makes of them. *)
Theorem compute_embeddings_row_per_entry
    (entries : list entry) (bi_encoder : list string -> tensor)
    (embeddings_file : string) (regenerate : bool) (w : world) :
  (forall t, List.length (normalize_embeddings E t) = List.length t) ->
  (forall texts, List.length (bi_encoder texts) = List.length texts) ->
  regenerate = true \/ files w embeddings_file = None ->
  exists t w',
    compute_embeddings E entries bi_encoder embeddings_file regenerate w
      = (inr t, w') /\
    List.length t = List.length entries /\
    files w' embeddings_file = Some (torch_save E t).
Proof.
  intros Hnorm Hbi Hmiss.
  unfold compute_embeddings, bind, exists_file.
  assert (Hcond : match files w embeddings_file with
                  | Some _ => true
                  | None => false
                  end && negb regenerate = false).
  { destruct Hmiss as [-> | ->]; [apply andb_false_r | reflexivity]. }
  rewrite Hcond. unfold emit, write_file, ret. cbn [files log].
  eexists _, _. split; [reflexivity|]. split.
  - now rewrite Hnorm, Hbi, length_map.
  - cbn [files]. apply update_same.
Qed.

End CacheEdges.

Lemma compute_embeddings_cached_ignores_corpus_witness :
  TextSearch.compute_embeddings Sample.text_env Sample.corpus
      Sample.unit_encoder "/emb.pt" false Sample.cached_world =
    TextSearch.compute_embeddings Sample.text_env [] (fun _ => [])
      "/emb.pt" false Sample.cached_world /\
  files (snd (TextSearch.compute_embeddings Sample.text_env Sample.corpus
                Sample.unit_encoder "/emb.pt" false Sample.cached_world))
    = files Sample.cached_world.
Proof.
  apply (@compute_embeddings_cached_ignores_corpus Sample.text_env
           Sample.corpus [] Sample.unit_encoder (fun _ => []) "/emb.pt"
           Sample.cached_world).
  vm_compute. discriminate.
Defined.

Lemma compute_embeddings_unreadable_cache_witness :
  TextSearch.compute_embeddings Sample.strict_env Sample.corpus
      Sample.unit_encoder "/emb.pt" false Sample.cached_world =
    (inl (UnpicklingError "/emb.pt"),
     World (files Sample.cached_world)
           (log Sample.cached_world ++ [FileRead "/emb.pt"])%list).
Proof.
  apply (@compute_embeddings_unreadable_cache Sample.strict_env Sample.corpus
           Sample.unit_encoder "/emb.pt" "rr" Sample.cached_world);
    reflexivity.
Defined.

Lemma compute_embeddings_row_per_entry_witness :
  exists t w',
    TextSearch.compute_embeddings Sample.text_env Sample.corpus
        Sample.unit_encoder "/emb.pt" true Sample.cached_world = (inr t, w') /\
    List.length t = List.length Sample.corpus /\
    files w' "/emb.pt" = Some (TextSearch.torch_save Sample.text_env t).
Proof.
  apply (@compute_embeddings_row_per_entry Sample.text_env Sample.corpus
           Sample.unit_encoder "/emb.pt" true Sample.cached_world).
  - reflexivity.
  - intros texts. apply length_map.
  - left. reflexivity.
Defined.

Section Setup.

Import TextSearch.
Variable E : TextSearch.env.
Variable S : TextSearch.setup_env.

(** What a run of [setup] that returns went through. *)
Lemma setup_inr text_to_jsonl config search_config regenerate fs w m w' :
  setup E S text_to_jsonl config search_config regenerate fs w = (inr m, w') ->
  exists w1 w2 entries embeddings,
    (if negb (match files w (resolve_absolute_path S (compressed_jsonl config))
              with Some _ => true | None => false end) || regenerate
     then exists r, text_to_jsonl (input_files config) (input_filter config)
                      (resolve_absolute_path S (compressed_jsonl config)) w
                    = (inr r, w1)
     else w1 = w) /\
    extract_entries S (resolve_absolute_path S (compressed_jsonl config)) w1
      = (inr entries, w2) /\
    compute_embeddings E entries
        (load_bi_encoder S (resolve_absolute_path S (model_directory search_config))
                         (encoder search_config))
        (resolve_absolute_path S (embeddings_file config)) regenerate w2
      = (inr embeddings, w') /\
    m = Model entries embeddings
          (load_bi_encoder S (resolve_absolute_path S (model_directory search_config))
                           (encoder search_config))
          (load_cross_encoder S
             (resolve_absolute_path S (model_directory search_config))
             (cross_encoder_name search_config))
          (map (fun f => filter_load S f entries regenerate) fs)
          (Nat.min (List.length entries) 15).
Proof.
  unfold setup, initialize_model. unfold bind at 1. unfold exists_file at 1.
  set (jsonl := resolve_absolute_path S (compressed_jsonl config)).
  set (present := match files w jsonl with Some _ => true | None => false end).
  unfold bind at 1.
  destruct (negb present || regenerate) eqn:Hcond.
  - unfold bind at 1.
    destruct (text_to_jsonl _ _ jsonl w) as [[e|r] w1] eqn:Hconv;
      [discriminate|].
    cbn [ret]. unfold bind at 1.
    destruct (extract_entries S jsonl w1) as [[e|entries] w2] eqn:Hext;
      [discriminate|].
    unfold bind at 1.
    destruct (compute_embeddings E entries _ _ regenerate w2)
      as [[e|embeddings] w3] eqn:Hemb; [discriminate|].
    intros H. inversion H; subst.
    exists w1, w2, entries, embeddings. repeat split; eauto.
  - cbn [ret]. unfold bind at 1.
    destruct (extract_entries S jsonl w) as [[e|entries] w2] eqn:Hext;
      [discriminate|].
    unfold bind at 1.
    destruct (compute_embeddings E entries _ _ regenerate w2)
      as [[e|embeddings] w3] eqn:Hemb; [discriminate|].
    intros H. inversion H; subst.
    exists w, w2, entries, embeddings. repeat split; eauto.
Qed.


(** X20: when the JSON Lines file exists and [regenerate] is false,
    [setup] does not call the converter: it ends the same way whatever the
    converter is. *)
Theorem setup_skips_conversion text_to_jsonl1 text_to_jsonl2
    config search_config fs w :
  files w (resolve_absolute_path S (compressed_jsonl config)) <> None ->
  setup E S text_to_jsonl1 config search_config false fs w =
  setup E S text_to_jsonl2 config search_config false fs w.
Proof.
  intros Hfile. unfold setup, initialize_model, bind, exists_file.
  destruct (files w (resolve_absolute_path S (compressed_jsonl config)));
    [reflexivity | congruence].
Qed.

(** X21: when [setup] regenerates, with encoders that give a row or a
    score for each input and a search library that keeps its promises, the
    model it returns has an embedding row for each entry, and every query
    on it returns. *)
Theorem setup_regenerated_model_answers
    text_to_jsonl config search_config fs w m w' :
  set_order_ok E -> search_ok E ->
  (forall t, List.length (normalize_embeddings E t) = List.length t) ->
  (forall dir name texts,
      List.length (load_bi_encoder S dir name texts) = List.length texts) ->
  (forall dir name pairs,
      List.length (load_cross_encoder S dir name pairs) = List.length pairs) ->
  setup E S text_to_jsonl config search_config true fs w = (inr m, w') ->
  List.length (corpus_embeddings m) = List.length (entries m) /\
  forall raw_query rank w2,
    exists hits ents w3,
      query E raw_query m rank w2 = (inr (hits, ents), w3).
Proof.
  intros Hset Hok Hnorm Hbi Hcross H.
  destruct (setup_inr _ _ _ _ _ _ H)
    as (w1 & w2 & entries & embeddings & _ & _ & Hemb & ->).
  assert (Hlen : List.length embeddings = List.length entries).
  { unfold compute_embeddings, bind, exists_file in Hemb.
    rewrite andb_false_r in Hemb.
    unfold emit, write_file, ret in Hemb. inversion Hemb; subst.
    now rewrite Hnorm, Hbi, length_map. }
  split; [exact Hlen|].
  intros raw_query rank w0. apply query_returns; auto.
  - repeat split; cbn; auto.
  - cbn. lia.
Qed.

End Setup.

Section SetupWitnesses.

Import TextSearch.


Lemma setup_skips_conversion_witness :
  setup Sample.text_env Sample.setup_env
        (Markdown.markdown_to_jsonl Sample.md_env)
        Sample.content_config Sample.search_config false
        [Sample.plus_filter] Sample.converted_world =
  setup Sample.text_env Sample.setup_env
        (fun _ _ _ => raise KeyError)
        Sample.content_config Sample.search_config false
        [Sample.plus_filter] Sample.converted_world.
Proof.
  apply (@setup_skips_conversion Sample.text_env Sample.setup_env
           (Markdown.markdown_to_jsonl Sample.md_env)
           (fun _ _ _ => raise KeyError)
           Sample.content_config Sample.search_config [Sample.plus_filter]
           Sample.converted_world).
  vm_compute. discriminate.
Defined.

Lemma setup_regenerated_model_answers_witness :
  exists m w',
    setup Sample.text_env Sample.setup_env
          (Markdown.markdown_to_jsonl Sample.md_env)
          Sample.content_config Sample.search_config true
          [Sample.plus_filter] Sample.notes_world = (inr m, w') /\
    List.length (corpus_embeddings m) = List.length (entries m) /\
    forall raw_query rank w2,
      exists hits ents w3,
        query Sample.text_env raw_query m rank w2 = (inr (hits, ents), w3).
Proof.
  destruct (setup Sample.text_env Sample.setup_env
              (Markdown.markdown_to_jsonl Sample.md_env)
              Sample.content_config Sample.search_config true
              [Sample.plus_filter] Sample.notes_world)
    as [[e|m] w'] eqn:Hrun.
  - vm_compute in Hrun. discriminate.
  - exists m, w'. split; [reflexivity|].
    eapply (@setup_regenerated_model_answers Sample.text_env Sample.setup_env).
    + exact sample_set_order_ok.
    + exact sample_search_ok.
    + reflexivity.
    + intros dir name texts. apply length_map.
    + intros dir name pairs. apply length_map.
    + exact Hrun.
Defined.

End SetupWitnesses.

(** * The JSON Lines text determines the records *)

Section JsonReading.

Import Markdown.

Lemma read_escape_char c t :
  Json.read_until_quote (Json.escape_char c ++ t) =
  match Json.read_until_quote t with
  | Some (d, rest) => Some (String c d, rest)
  | None => None
  end.
Proof. destruct c as [[] [] [] [] [] [] [] []]; reflexivity. Qed.

(** Reading back an escaped text gives the text. *)
Lemma read_escape s rest :
  Json.read_until_quote (Json.escape s ++ String QUOTE rest) = Some (s, rest).
Proof.
  induction s as [|c s IH]; [reflexivity|].
  cbn [Json.escape]. now rewrite append_assoc, read_escape_char, IH.
Qed.

Lemma append_cancel_l (s a b : string) : s ++ a = s ++ b -> a = b.
Proof.
  induction s as [|c s IH]; simpl; intros H; [exact H|].
  injection H as H. auto.
Qed.

Lemma escape_quote_cancel s s' rest rest' :
  Json.escape s ++ String QUOTE rest = Json.escape s' ++ String QUOTE rest' ->
  s = s' /\ rest = rest'.
Proof.
  intros H. apply (f_equal Json.read_until_quote) in H.
  rewrite !read_escape in H. now inversion H.
Qed.

End JsonReading.

Section RecordsFromText.

Import Markdown.

Ltac peel H :=
  repeat (injection H as H); rewrite ?append_assoc in H; cbn [append] in H.

(** The text of a record determines its entry and its file. *)
Lemma record_text_cancel e f e' f' :
  Json.dumps (entry_dict e f) = Json.dumps (entry_dict e' f') ->
  e = e' /\ f = f'.
Proof.
  unfold Json.dumps, entry_dict, Json.encode_item, Json.encode_str.
  cbn [map fst snd join Json.escape Json.escape_char].
  intros H. simpl in H. peel H.
  apply escape_quote_cancel in H. destruct H as [<- H].
  peel H.
  apply escape_quote_cancel in H. destruct H as [_ H].
  peel H.
  apply escape_quote_cancel in H. destruct H as [<- _].
  split; reflexivity.
Qed.

Lemma records_text_cancel (ps qs : list (string * string)) :
  jsonl_of_records (map (fun ef => entry_dict (fst ef) (snd ef)) ps) =
  jsonl_of_records (map (fun ef => entry_dict (fst ef) (snd ef)) qs) ->
  ps = qs.
Proof.
  intros H. apply (f_equal lines) in H.
  rewrite !lines_jsonl_of_records in H. apply app_inv_tail in H.
  revert qs H. induction ps as [|[e f] ps IH]; intros [|[e' f'] qs] H;
    cbn [map fst snd] in H; try discriminate; [reflexivity|].
  pose proof (f_equal (hd EmptyString) H) as Hd.
  pose proof (f_equal (@tl string) H) as Hrest.
  cbn [hd tl] in Hd, Hrest.
  apply record_text_cancel in Hd. destruct Hd as [-> ->].
  now rewrite (IH _ Hrest).
Qed.

Lemma combine_cancel {A B} (l l' : list A) (m m' : list B) :
  List.length l = List.length m -> List.length l' = List.length m' ->
  combine l m = combine l' m' -> l = l' /\ m = m'.
Proof.
  intros Hl Hl' H.
  pose proof (combine_split l m Hl) as H1.
  pose proof (combine_split l' m' Hl') as H2.
  rewrite H in H1. rewrite H1 in H2. now inversion H2.
Qed.

(** X22: the JSON Lines text determines what it was made from: when
    [convert_markdown_entries_to_jsonl] returns the same text for two
    lists of entries, each with as many files, the entries and the files
    are the same.  No character of an entry or a path is lost or confused
    by the JSON escapes. *)
Theorem convert_text_determines_entries
    (entries files entries' files' : list string) (jsonl : string) :
  List.length entries = List.length files ->
  List.length entries' = List.length files' ->
  convert_markdown_entries_to_jsonl entries files = inr jsonl ->
  convert_markdown_entries_to_jsonl entries' files' = inr jsonl ->
  entries = entries' /\ files = files'.
Proof.
  unfold convert_markdown_entries_to_jsonl. intros Hl Hl' H H'.
  rewrite convert_loop_ok in H by (cbn [Nat.add]; lia).
  rewrite convert_loop_ok in H' by (cbn [Nat.add]; lia).
  cbn [skipn append] in H, H'.
  inversion H as [Hj]. inversion H' as [Hj'].
  rewrite <- Hj' in Hj. apply records_text_cancel in Hj.
  now apply combine_cancel.
Qed.

End RecordsFromText.

Lemma convert_text_determines_entries_witness :
  ["#A"; "## B"] = ["#A"; "## B"] /\ ["/a.md"; "/a.md"] = ["/a.md"; "/a.md"].
Proof.
  destruct (Markdown.convert_markdown_entries_to_jsonl
              ["#A"; "## B"] ["/a.md"; "/a.md"]) as [e|jsonl] eqn:Hrun.
  - vm_compute in Hrun. discriminate.
  - apply (@convert_text_determines_entries ["#A"; "## B"] ["/a.md"; "/a.md"]
             ["#A"; "## B"] ["/a.md"; "/a.md"] jsonl);
      [reflexivity | reflexivity | exact Hrun | exact Hrun].
Defined.

(** * Nothing but the converter writes *)

Section NoWrites.

Import TextSearch.
Variable E : TextSearch.env.
Variable format_3f : Q -> string.

Lemma writes_nothing_search_and_rank m q ents embs rank :
  writes_nothing (search_and_rank E m q ents embs rank).
Proof.
  unfold search_and_rank.
  apply writes_nothing_bind; [now apply writes_nothing_emit|]. intros _.
  apply writes_nothing_bind; [now apply writes_nothing_emit|]. intros _.
  apply writes_nothing_bind; [apply writes_nothing_lift|]. intros hits.
  apply writes_nothing_bind.
  { destruct rank; [|apply writes_nothing_ret].
    apply writes_nothing_bind; [apply writes_nothing_lift|]. intros ps.
    apply writes_nothing_bind; [now apply writes_nothing_emit|]. intros _.
    apply writes_nothing_lift. }
  intros hits1.
  apply writes_nothing_bind; [apply writes_nothing_lift|]. intros hits2.
  apply writes_nothing_bind; [|intros; apply writes_nothing_ret].
  destruct rank; [apply writes_nothing_lift | apply writes_nothing_ret].
Qed.

Lemma writes_nothing_print_hits line hits :
  writes_nothing (print_hits line hits).
Proof.
  induction hits as [|h hits IH]; cbn [print_hits];
    [apply writes_nothing_ret|].
  apply writes_nothing_bind; [apply writes_nothing_lift|]. intros text.
  apply writes_nothing_bind; [now apply writes_nothing_emit|]. intros _.
  exact IH.
Qed.

(** X23: [query] and [render_results] never write a file: however a run
    ends, with a result or with an exception, every file is as it was and
    no write is logged. *)
Theorem search_writes_nothing
    (raw_query : string) (m : TextSearchModel) (rank : bool)
    (hits : list hit) (ents : list entry) (count : Z) (display : bool) :
  writes_nothing (query E raw_query m rank) /\
  writes_nothing (render_results format_3f hits ents count display).
Proof.
  split.
  - unfold query. destruct (filter_stage E raw_query m) as [q idxs].
    destruct idxs as [|i idxs]; [apply writes_nothing_ret|].
    apply writes_nothing_bind; [apply writes_nothing_lift|].
    intros [es embs]. destruct es; [apply writes_nothing_ret|].
    apply writes_nothing_search_and_rank.
  - unfold render_results.
    apply writes_nothing_bind.
    { destruct display; [|apply writes_nothing_ret].
      apply writes_nothing_bind; [now apply writes_nothing_emit|]. intros _.
      apply writes_nothing_bind; [now apply writes_nothing_emit|]. intros _.
      apply writes_nothing_bind; [apply writes_nothing_lift|]. intros hs.
      apply writes_nothing_bind; [apply writes_nothing_print_hits|].
      intros _. apply writes_nothing_ret. }
    intros hs.
    apply writes_nothing_bind; [now apply writes_nothing_emit|]. intros _.
    apply writes_nothing_bind; [now apply writes_nothing_emit|]. intros _.
    apply writes_nothing_bind; [apply writes_nothing_lift|]. intros hs'.
    apply writes_nothing_print_hits.
Qed.

End NoWrites.

(** * More on the entries of a file *)

Section EntryShape.

Import Markdown.
Variable E : Markdown.env.

(** X24: a file that is empty or begins with ['#'] gives the bare ['#']
    as its first entry, made from the empty text before the first heading,
    followed by one entry for each line beginning with ['#']. *)
Theorem leading_heading_gives_bare_entry (content : string) :
  starts_with_hash content = true \/ content = EmptyString ->
  exists rest,
    markdown_entries_per_file E content = "#" :: rest /\
    List.length rest = heading_lines content.
Proof.
  intros H.
  pose proof (entries_per_file_count E content) as Hcount.
  assert (Hfirst : exists rest,
             markdown_entries_per_file E content = "#" :: rest).
  { unfold markdown_entries_per_file.
    destruct H as [H| ->]; [|now exists []].
    destruct content as [|c s]; [discriminate|].
    simpl in H. cbn [re_split_heading]. rewrite H. cbn [andb map].
    eexists. reflexivity. }
  destruct Hfirst as [rest Hrest]. exists rest. split; [exact Hrest|].
  rewrite Hrest in Hcount. simpl in Hcount. lia.
Qed.

Lemma first_piece_no_hash s :
  starts_with_hash (hd EmptyString (re_split_heading true s)) = false.
Proof.
  destruct s as [|c s]; [reflexivity|].
  cbn [re_split_heading andb].
  destruct (Ascii.eqb c HASH) eqn:Hc; [reflexivity|].
  pose proof (re_split_heading_nonempty s (Ascii.eqb c LF)) as Hne.
  destruct (re_split_heading (Ascii.eqb c LF) s); [congruence|].
  simpl. exact Hc.
Qed.

(** No piece of the split has a line, after its first, that begins with
    ['#']. *)
Lemma pieces_no_later_heading s :
  forall bol, Forall (fun p => later_headings p = 0) (re_split_heading bol s).
Proof.
  induction s as [|c s IH]; intros bol; [repeat constructor|].
  cbn [re_split_heading].
  destruct (bol && Ascii.eqb c HASH); [constructor; [reflexivity | apply IH]|].
  pose proof (re_split_heading_nonempty s (Ascii.eqb c LF)) as Hne.
  pose proof (IH (Ascii.eqb c LF)) as Hall.
  pose proof (first_piece_no_hash s) as Hfirst.
  destruct (Ascii.eqb c LF) eqn:Hc;
    (destruct (re_split_heading _ s) as [|p ps]; [congruence|]);
    inversion Hall as [|? ? Hp Hps]; subst;
    (constructor; [|exact Hps]);
    rewrite later_headings_cons, Hc.
  - rewrite heading_lines_split. simpl in Hfirst. now rewrite Hfirst, Hp.
  - exact Hp.
Qed.

Lemma later_headings_suffix a t :
  later_headings (a ++ t) = 0 -> later_headings t = 0.
Proof.
  induction a as [|c a IH]; [auto|].
  cbn [append]. rewrite later_headings_cons.
  destruct (Ascii.eqb c LF); [|exact IH].
  rewrite heading_lines_split. intros H. apply IH. lia.
Qed.

Lemma later_headings_prefix r b :
  later_headings (r ++ b) = 0 -> later_headings r = 0.
Proof.
  induction r as [|c r IH]; [reflexivity|].
  cbn [append]. rewrite !later_headings_cons.
  destruct (Ascii.eqb c LF); [|exact IH].
  rewrite !heading_lines_split. intros H.
  rewrite IH by lia.
  destruct r as [|d r]; [reflexivity|]. simpl in *. lia.
Qed.

Lemma later_headings_occurs t s :
  occurs_in t s -> later_headings s = 0 -> later_headings t = 0.
Proof.
  intros (a & b & ->) H.
  apply later_headings_suffix in H. now apply later_headings_prefix in H.
Qed.

(** X25: every entry has exactly one line that begins with ['#'], its
    first: the split is flat, and a heading of any depth starts an entry
    of its own. *)
Theorem entries_hold_one_heading (content : string) :
  Forall (fun e => heading_lines e = 1) (markdown_entries_per_file E content).
Proof.
  unfold markdown_entries_per_file.
  apply Forall_forall. intros e He.
  apply in_map_iff in He. destruct He as (piece & <- & Hin).
  rewrite heading_lines_split, later_headings_cons.
  change (Ascii.eqb HASH LF) with false. cbn [starts_with_hash].
  rewrite Ascii.eqb_refl.
  pose proof (pieces_no_later_heading content true) as Hall.
  rewrite Forall_forall in Hall. specialize (Hall piece Hin).
  assert (Hocc : occurs_in (strip (empty_escape_sequences E) piece) piece).
  { unfold strip. eapply occurs_in_trans;
      [apply rstrip_occurs | apply lstrip_occurs]. }
  now rewrite (later_headings_occurs Hocc Hall).
Qed.

(** X27: the order in which the files are read only changes the order of
    the entries: for two orders of the same readable files,
    [extract_markdown_entries] returns the same entries with the same
    files, up to order. *)
Theorem extract_order_independent (w : world) (paths paths' : list string) :
  Forall (fun p => files w p <> None) paths ->
  Permutation paths paths' ->
  exists entries mp w1 entries' mp' w1',
    extract_markdown_entries E paths w = (inr (entries, mp), w1) /\
    extract_markdown_entries E paths' w = (inr (entries', mp'), w1') /\
    Permutation (combine entries mp) (combine entries' mp').
Proof.
  intros Hall Hperm.
  assert (Hall' : Forall (fun p => files w p <> None) paths').
  { apply Forall_forall. intros p Hp. rewrite Forall_forall in Hall.
    apply Hall. eapply Permutation_in; [symmetry; exact Hperm | exact Hp]. }
  unfold extract_markdown_entries.
  rewrite !extract_loop_ok by assumption. cbn [app].
  eexists _, _, _, _, _, _. split; [reflexivity|]. split; [reflexivity|].
  assert (Hc : forall l, combine (entries_of E w l) (files_of E w l) =
                         flat_map (fun p => map (fun e => (e, p))
                                     (markdown_entries_per_file E (content_of w p)))
                                  l).
  { unfold entries_of, files_of.
    induction l as [|p l IH]; [reflexivity|]. cbn [flat_map].
    rewrite combine_append by now rewrite repeat_length.
    now rewrite IH, combine_repeat. }
  rewrite !Hc. now apply Permutation_flat_map.
Qed.

End EntryShape.

Lemma leading_heading_gives_bare_entry_witness :
  exists rest,
    Markdown.markdown_entries_per_file Sample.md_env
      ("# A" ++ Sample.nl ++ "## B") = "#" :: rest /\
    List.length rest = heading_lines ("# A" ++ Sample.nl ++ "## B").
Proof.
  apply (@leading_heading_gives_bare_entry Sample.md_env
           ("# A" ++ Sample.nl ++ "## B")).
  left. reflexivity.
Defined.

Lemma extract_order_independent_witness :
  exists entries mp w1 entries' mp' w1',
    Markdown.extract_markdown_entries Sample.md_env
      ["/notes/a.md"; "/notes/b.md"] Sample.notes_world
      = (inr (entries, mp), w1) /\
    Markdown.extract_markdown_entries Sample.md_env
      ["/notes/b.md"; "/notes/a.md"] Sample.notes_world
      = (inr (entries', mp'), w1') /\
    Permutation (combine entries mp) (combine entries' mp').
Proof.
  apply (@extract_order_independent Sample.md_env Sample.notes_world
           ["/notes/a.md"; "/notes/b.md"] ["/notes/b.md"; "/notes/a.md"]).
  - repeat constructor; vm_compute; discriminate.
  - apply perm_swap.
Defined.

Section AllFilteredOut.

Import TextSearch.
Variable E : TextSearch.env.

(** X26: when iterating a set visits each element once and every entry
    is left out by some applicable filter, [query] returns no hits and no
    entries and calls no model. *)
Theorem query_all_filtered_out raw_query m rank w :
  set_order_ok E ->
  (forall i, i < List.length (entries m) ->
     Exists (fun s => ~ In i s)
            (filter_index_sets
               (List.filter (fun f => can_filter f raw_query) (filters m))
               raw_query (entries m))) ->
  query E raw_query m rank w = (inr ([], []), w).
Proof.
  intros Hset Hout. unfold query.
  destruct (filter_stage E raw_query m) as [q idxs] eqn:Hf.
  destruct idxs as [|i idxs]; [reflexivity|].
  exfalso.
  unfold filter_stage in Hf.
  destruct (@apply_filters_spec E Hset
              (List.filter (fun f => can_filter f raw_query) (filters m))
              raw_query (entries m) (set_of_range (List.length (entries m)))
              (seq_NoDup _ _)) as (_ & _ & Hin).
  rewrite Hf in Hin. cbn [snd] in Hin.
  destruct (proj1 (Hin i) (or_introl eq_refl)) as [Hi Hall].
  apply in_seq in Hi.
  specialize (Hout i ltac:(lia)).
  apply Exists_exists in Hout. destruct Hout as (s & Hs & Hnot).
  rewrite Forall_forall in Hall. auto.
Qed.

End AllFilteredOut.

Lemma query_all_filtered_out_witness :
  TextSearch.query Sample.text_env "+hello"
      (TextSearch.Model [TextSearch.Entry "#B" "#B" "/b.md"] [[1%Q; 0%Q]]
         Sample.unit_encoder Sample.length_scorer
         [TextSearch.Filter (fun _ => true) (fun q _ => (q, [4]))] 1)
      true Sample.quiet_world
    = (inr ([], []), Sample.quiet_world).
Proof.
  apply (@query_all_filtered_out Sample.text_env "+hello" _ true
           Sample.quiet_world sample_set_order_ok).
  intros i Hi. simpl in Hi. constructor. simpl.
  intros [H|[]]. lia.
Defined.

(** * The cross-encoder scores go to the right hits *)

Section CrossScoreSource.

Import TextSearch PySort.
Variable E : TextSearch.env.

Lemma forall2_nth_error {A B} (R : A -> B -> Prop) l l' :
  Forall2 R l l' ->
  forall j x, nth_error l j = Some x ->
  exists y, nth_error l' j = Some y /\ R x y.
Proof.
  induction 1 as [|a b l l' Hab _ IH]; intros [|j] x Hx; simpl in *;
    try discriminate.
  - inversion Hx; subst. eauto.
  - now apply IH.
Qed.

(** A score stored by the loop over [cross_scores] sits in the hit that
    had the same position in the list of hits. *)
Lemma set_cross_scores_source hits :
  Forall (fun h => cross_score h = None) hits ->
  forall cs hs, set_cross_scores hits cs = inr hs ->
  Forall (fun h => forall c, cross_score h = Some c ->
            exists j h0, nth_error cs j = Some c /\
                         nth_error hits j = Some h0 /\
                         corpus_id h0 = corpus_id h) hs.
Proof.
  induction 1 as [|h hits Hh Hrest IH]; intros [|c cs] hs H; simpl in H.
  - inversion H. constructor.
  - discriminate.
  - inversion H; subst. constructor.
    + intros c Hc. congruence.
    + apply Forall_forall. intros h' Hh' c Hc.
      rewrite Forall_forall in Hrest. rewrite (Hrest h' Hh') in Hc.
      discriminate.
  - destruct (set_cross_scores hits cs) as [e|hs'] eqn:Hs; [discriminate|].
    inversion H; subst. constructor.
    + intros c0 Hc0. simpl in Hc0. inversion Hc0; subst.
      exists 0, h. auto.
    + specialize (IH cs hs' Hs). apply Forall_forall.
      intros h' Hh' c0 Hc0. rewrite Forall_forall in IH.
      destruct (IH h' Hh' c0 Hc0) as (j & h0 & Hj & Hh0 & Hid).
      exists (S j), h0. auto.
Qed.

(** X28: after reranking, the cross-score stored in a hit is the score
    the cross-encoder returned at the position of the pair made of the
    filtered query and the compiled text of that hit's own entry: sorting
    moves the hits together with their scores. *)
Theorem query_cross_scores_belong raw_query m w hits ents w' :
  query E raw_query m true w = (inr (hits, ents), w') ->
  hits = [] \/
  exists ps,
    In (CrossEncoded ps) (log w') /\
    Forall (fun h =>
              exists j c e,
                cross_score h = Some c /\
                nth_error (cross_encoder m ps) j = Some c /\
                nth_error ps j
                  = Some (fst (filter_stage E raw_query m), compiled e) /\
                nth_error ents (corpus_id h) = Some e) hits.
Proof.
  intros H.
  destruct (@query_inr E _ _ _ _ _ _ _ H) as [(-> & _)|Hrun]; [now left|].
  right. destruct Hrun as (q & idxs & embs & Hf & _ & Hs).
  rewrite Hf. cbn [fst].
  destruct (@search_and_rank_inr E _ _ _ _ _ _ _ _ _ Hs) as
    (raw_hits & rest & hits1 & hits2 & evs & Hsearch & Hcross & Hs1 & Hs2 & _).
  destruct Hcross as (ps & Hps & Hset).
  destruct (@search_and_rank_world E _ _ _ _ _ _ _ _ _ Hs)
    as (raw_hits' & rest' & ps' & Hsearch' & Hps' & Hw).
  rewrite Hsearch in Hsearch'. inversion Hsearch'; subst raw_hits' rest'.
  specialize (Hps' eq_refl). rewrite Hps in Hps'. inversion Hps'; subst ps'.
  exists ps. split.
  { rewrite Hw. cbn [log]. apply in_or_app. right. simpl. auto. }
  assert (Hnone : Forall (fun h => cross_score h = None)
                         (map (fun h => Hit (fst h) (snd h) None) raw_hits)).
  { apply Forall_forall. intros h Hh. apply in_map_iff in Hh.
    destruct Hh as (rh & <- & _). reflexivity. }
  pose proof (@set_cross_scores_source _ Hnone _ _ Hset) as Hsrc.
  pose proof (@cross_inputs_pairs _ _ _ _ Hps) as Hpairs.
  apply Forall_forall. intros h Hh.
  apply (@sort_reverse_in _ _ _ _ Hs2) in Hh.
  destruct (@sort_reverse_keys _ _ _ _ Hs2 h Hh) as [c Hc].
  unfold cross_score_key in Hc.
  destruct (cross_score h) as [c'|] eqn:Hch; [|discriminate].
  inversion Hc; subst c'.
  apply (@sort_reverse_in _ _ _ _ Hs1) in Hh.
  rewrite Forall_forall in Hsrc.
  destruct (Hsrc h Hh c Hch) as (j & h0 & Hj & Hh0 & Hid).
  destruct (@forall2_nth_error _ _ _ _ _ Hpairs _ _ Hh0)
    as ([pq pt] & Hp & Hq & e & He & Ht).
  simpl in Hq, Ht. subst pq pt.
  exists j, c, e. rewrite <- Hid. auto.
Qed.

End CrossScoreSource.

Lemma query_cross_scores_belong_witness :
  Sample.hello_hits_ranked = [] \/
  exists ps,
    In (CrossEncoded ps) (log Sample.hello_world_ranked) /\
    Forall (fun h =>
              exists j c e,
                TextSearch.cross_score h = Some c /\
                nth_error (TextSearch.cross_encoder Sample.text_model ps) j
                  = Some c /\
                nth_error ps j
                  = Some (fst (TextSearch.filter_stage Sample.text_env "hello"
                                 Sample.text_model),
                          TextSearch.compiled e) /\
                nth_error Sample.corpus (TextSearch.corpus_id h) = Some e)
           Sample.hello_hits_ranked.
Proof.
  exact (@query_cross_scores_belong Sample.text_env "hello" Sample.text_model
           Sample.quiet_world Sample.hello_hits_ranked Sample.corpus
           Sample.hello_world_ranked sample_hello_ranked).
Defined.
